(** * Conway's Game of Life (main.c): simulation and interaction core

    A shallow embedding of [src/main.c].  The two global structures
    [g_map] and [g_sim] and the function-local static
    [accumulatedSeconds] are bundled in one record that every operation
    receives and returns (explicit state passing).

    Modelling conventions.
    - [int] and [uint64_t] values are [Z]; the only arithmetic that can
      leave its range is the [uint64_t] timestamp, whose wrap-around is
      written out ([wrap64]).  Loop counters stay below 1600.
    - [float]/[double] values are rationals ([Q]), i.e. exact arithmetic.
      Every constant of the layout (0.5, 19, 20) is a dyadic rational that
      both formats represent exactly.
      In [Q] a division by zero gives 0 where C gives an infinity or NaN:
      the clock is described at a positive counter frequency, which is
      what [SDL_GetPerformanceFrequency] returns.
    - A [Cell *] is [option nat]: [None] is [nullptr], [Some k] points at
      the [k]-th cell of [g_map.cellMap] in memory order, so
      [&g_map.cellMap[i][j]] is [Some (i * GRID_SIZE_Y + j)].  Reading
      through a pointer reads the shared store, so aliasing is kept.
    - Dereferencing a null or dangling cell pointer is undefined in C; the
      model reads such a cell as not alive and writes nothing.  On a grid
      built by [SDL_AppInit] every neighbour pointer is valid, so this never
      happens. *)

From Stdlib Require Import ZArith QArith Lia Lqa Bool List.
From stdpp Require Import base list.
Import ListNotations.
Open Scope Z_scope.

(** ** Configuration constants *)

Definition FPS : Q := 20.
Definition MAX_WIDTH : Z := 800.
Definition MAX_HEIGHT : Z := 800.
Definition GRID_SIZE_X : Z := 40.
Definition GRID_SIZE_Y : Z := 40.
Definition GRID_GAP : Z := 1.
Definition NUM_CELL_NEIGHBORS : nat := 8.

Definition CELL_WIDTH : Q :=
  (inject_Z MAX_WIDTH / inject_Z GRID_SIZE_X - inject_Z GRID_GAP)%Q.
Definition CELL_HEIGHT : Q :=
  (inject_Z MAX_WIDTH / inject_Z GRID_SIZE_Y - inject_Z GRID_GAP)%Q.

(** Values of the SDL3 headers used by the event handler. *)
Definition SDL_ALPHA_OPAQUE : Z := 255.
Definition SDL_BUTTON_LEFT : Z := 1.
Definition SDL_BUTTON_LMASK : Z := 1.
Definition SDLK_P : Z := 112.
Definition SDLK_PERIOD : Z := 46.
Definition SDLK_R : Z := 114.

(** ** Data model *)

Record Color := mkColor { color_r : Z; color_g : Z; color_b : Z; color_a : Z }.

Record SDL_FRect := mkFRect { rect_x : Q; rect_y : Q; rect_w : Q; rect_h : Q }.

Record SDL_FPoint := mkFPoint { point_x : Q; point_y : Q }.

(** [Cell *]: an offset into [cellMap], or [nullptr]. *)
Definition CellPtr : Type := option nat.

(** [SDL_FRect *]: an offset into [cellDrawList], or [nullptr]. *)
Definition RectPtr : Type := option nat.

Record Cell := mkCell {
  isAlive : bool;
  frect : RectPtr;
  neighbors : list CellPtr;
  color : Color;
  cell_x : Z;
  cell_y : Z
}.

Record MapSystem := mkMap {
  cellDrawList : list SDL_FRect;
  cellCount : Z;
  cellMap : list Cell;
  dragStartCell : CellPtr
}.

Record SimulationSystem := mkSim {
  isAFixedUpdate : bool;
  timestamp : Z;
  fps : Q;
  isPlaying : bool;
  shouldRunFrame : bool
}.

(** The process-wide state: the two globals and the static local of
    [tickSimulationTimer]. *)
Record World := mkWorld {
  g_map : MapSystem;
  g_sim : SimulationSystem;
  accumulatedSeconds : Q
}.

Inductive CellSetAction := CELL_SET_ALIVE | CELL_SET_DEAD | CELL_TOGGLE.

Inductive SDL_AppResult := SDL_APP_CONTINUE | SDL_APP_SUCCESS | SDL_APP_FAILURE.

(** The events [SDL_AppEvent] distinguishes; every other event type is
    [SDL_EVENT_OTHER]. *)
Inductive SDL_Event :=
  | SDL_EVENT_QUIT
  | SDL_EVENT_MOUSE_BUTTON_DOWN (button : Z) (x y : Q)
  | SDL_EVENT_MOUSE_MOTION (state : Z) (x y : Q)
  | SDL_EVENT_KEY_DOWN (key : Z)
  | SDL_EVENT_OTHER.

(** ** Field updates *)

Definition set_isAlive (v : bool) (c : Cell) : Cell :=
  mkCell v (frect c) (neighbors c) (color c) (cell_x c) (cell_y c).

Definition set_cellMap (cm : list Cell) (m : MapSystem) : MapSystem :=
  mkMap (cellDrawList m) (cellCount m) cm (dragStartCell m).

Definition set_dragStartCell (p : CellPtr) (m : MapSystem) : MapSystem :=
  mkMap (cellDrawList m) (cellCount m) (cellMap m) p.

Definition set_isPlaying (v : bool) (s : SimulationSystem) : SimulationSystem :=
  mkSim (isAFixedUpdate s) (timestamp s) (fps s) v (shouldRunFrame s).

Definition set_shouldRunFrame (v : bool) (s : SimulationSystem) : SimulationSystem :=
  mkSim (isAFixedUpdate s) (timestamp s) (fps s) (isPlaying s) v.

Definition set_isAFixedUpdate (v : bool) (s : SimulationSystem) : SimulationSystem :=
  mkSim v (timestamp s) (fps s) (isPlaying s) (shouldRunFrame s).

Definition set_timestamp (t : Z) (s : SimulationSystem) : SimulationSystem :=
  mkSim (isAFixedUpdate s) t (fps s) (isPlaying s) (shouldRunFrame s).

Definition with_map (m : MapSystem) (w : World) : World :=
  mkWorld m (g_sim w) (accumulatedSeconds w).

Definition with_sim (s : SimulationSystem) (w : World) : World :=
  mkWorld (g_map w) s (accumulatedSeconds w).

(** ** Grid addressing *)

(** Offset of [cellMap[i][j]] from [cellMap[0][0]]. *)
Definition cellIndex (i j : Z) : nat := Z.to_nat (i * GRID_SIZE_Y + j).

(** The order in which every nested loop of the program visits the grid:
    [for j in 0..GRID_SIZE_Y) for i in 0..GRID_SIZE_X)]. *)
Definition scanOrder : list (Z * Z) :=
  j ← seqZ 0 GRID_SIZE_Y; i ← seqZ 0 GRID_SIZE_X; [(i, j)].

(** The cell offset of a coordinate pair. *)
Definition cellOf (ij : Z * Z) : nat := cellIndex ij.1 ij.2.

(** [p->isAlive] for a cell pointer [p]. *)
Definition ptrAlive (m : MapSystem) (p : CellPtr) : bool :=
  match p ≫= (cellMap m !!.) with
  | Some c => isAlive c
  | None => false
  end.

(** [p->neighbors] for a cell offset [p], as a list. *)
Definition neighborsOf (m : MapSystem) (p : nat) : list CellPtr :=
  from_option neighbors [] (cellMap m !! p).

(** [p->isAlive = v] for a cell offset [p]. *)
Definition writeAlive (v : bool) (m : MapSystem) (p : nat) : MapSystem :=
  set_cellMap (alter (set_isAlive v) p (cellMap m)) m.

(** ** SDL_AppInit: grid construction *)

Definition aliveCellColor : Color := mkColor 195 199 205 SDL_ALPHA_OPAQUE.
Definition deadCellColor : Color := mkColor 56 59 64 SDL_ALPHA_OPAQUE.

Definition zeroRect : SDL_FRect := mkFRect 0 0 0 0.
Definition zeroCell : Cell :=
  mkCell false None (replicate NUM_CELL_NEIGHBORS None) (mkColor 0 0 0 0) 0 0.

(** [static MapSystem g_map = {0}]. *)
Definition zeroMap : MapSystem :=
  mkMap (replicate (Z.to_nat (GRID_SIZE_X * GRID_SIZE_Y)) zeroRect) 0
        (replicate (Z.to_nat (GRID_SIZE_X * GRID_SIZE_Y)) zeroCell) None.

(** [static SimulationSystem g_sim = {0}]. *)
Definition zeroSim : SimulationSystem := mkSim false 0 0 false false.

(** The neighbour wiring of cell [(i, j)]: the four wrapped indices and
    the eight pointers stored in [cell->neighbors]. *)
Definition wiredNeighbors (i j : Z) : list CellPtr :=
  let leftNeighborIndex := if i - 1 <? 0 then GRID_SIZE_X - 1 else i - 1 in
  let rightNeighborIndex := if i + 1 >=? GRID_SIZE_X then 0 else i + 1 in
  let topNeighborIndex := if j - 1 <? 0 then GRID_SIZE_Y - 1 else j - 1 in
  let bottomNeighborIndex := if j + 1 >=? GRID_SIZE_Y then 0 else j + 1 in
  [ Some (cellIndex leftNeighborIndex j);
    Some (cellIndex leftNeighborIndex topNeighborIndex);
    Some (cellIndex leftNeighborIndex bottomNeighborIndex);
    Some (cellIndex rightNeighborIndex j);
    Some (cellIndex rightNeighborIndex topNeighborIndex);
    Some (cellIndex rightNeighborIndex bottomNeighborIndex);
    Some (cellIndex i topNeighborIndex);
    Some (cellIndex i bottomNeighborIndex) ].

(** Body of the construction loop for one [(i, j)]. *)
Definition initCell (m : MapSystem) (ij : Z * Z) : MapSystem :=
  let '(i, j) := ij in
  let rectIndex := Z.to_nat (GRID_SIZE_X * j + i) in
  let cellFRect :=
    mkFRect
      (inject_Z GRID_GAP / 2 + inject_Z i * (CELL_WIDTH + inject_Z GRID_GAP))%Q
      (inject_Z GRID_GAP / 2 + inject_Z j * (CELL_HEIGHT + inject_Z GRID_GAP))%Q
      CELL_WIDTH CELL_HEIGHT in
  let cell :=
    mkCell false (Some rectIndex) (wiredNeighbors i j) aliveCellColor i j in
  mkMap (<[rectIndex := cellFRect]> (cellDrawList m)) (cellCount m)
        (<[cellIndex i j := cell]> (cellMap m)) (dragStartCell m).

(** The map after the construction loop of [SDL_AppInit]. *)
Definition initialMap : MapSystem :=
  let map0 := mkMap (cellDrawList zeroMap) (GRID_SIZE_X * GRID_SIZE_Y)
                    (cellMap zeroMap) (dragStartCell zeroMap) in
  foldl initCell map0 scanOrder.

(** The state [SDL_AppInit] leaves behind when window and renderer were
    created; [counter] is the reading of [SDL_GetPerformanceCounter]. *)
Definition SDL_AppInit (counter : Z) : World :=
  let sim := mkSim false counter FPS false (shouldRunFrame zeroSim) in
  mkWorld initialMap sim 0.

(** ** Rule engine *)

(** [getNumLiveNeighbors(cell)]: the loop over [cell->neighbors[0..8)].
    [cell] is the offset of the cell examined. *)
Definition getNumLiveNeighbors (m : MapSystem) (cell : nat) : Z :=
  let nbrs := neighborsOf m cell in
  foldl (fun numLiveNeighbors i =>
           if ptrAlive m (mjoin (nbrs !! i))
           then numLiveNeighbors + 1 else numLiveNeighbors)
        0 (seq 0 NUM_CELL_NEIGHBORS).

(** The two staging arrays; [birthCount] and [deathCount] are the lengths
    of the lists. *)
Record Staged := mkStaged { cellsToBirth : list nat; cellsToKill : list nat }.

(** Body of the test loop for one [(i, j)]: reads [m], stages at most one
    entry. *)
Definition testCell (m : MapSystem) (st : Staged) (ij : Z * Z) : Staged :=
  let '(i, j) := ij in
  let cell := cellIndex i j in
  let liveNeighbors := getNumLiveNeighbors m cell in
  if ptrAlive m (Some cell) && ((liveNeighbors <? 2) || (liveNeighbors >? 3))
  then mkStaged (cellsToBirth st) (cellsToKill st ++ [cell])
  else if negb (ptrAlive m (Some cell)) && (liveNeighbors =? 3)
  then mkStaged (cellsToBirth st ++ [cell]) (cellsToKill st)
  else st.

Definition simulateConwayIteration (m : MapSystem) : MapSystem :=
  let st := foldl (testCell m) (mkStaged [] []) scanOrder in
  let m1 := foldl (writeAlive true) m (cellsToBirth st) in
  foldl (writeAlive false) m1 (cellsToKill st).

(** ** Simulation clock *)

Definition wrap64 (z : Z) : Z := z mod 2 ^ 64.

(** [tickSimulationTimer]; [counter] and [frequency] are the readings of
    [SDL_GetPerformanceCounter] and [SDL_GetPerformanceFrequency]. *)
Definition tickSimulationTimer (counter frequency : Z) (w : World) : World :=
  let cycleTime := (1 / fps (g_sim w))%Q in
  let lastTimestamp := timestamp (g_sim w) in
  let sim1 := set_timestamp counter (g_sim w) in
  let delta := inject_Z (wrap64 (timestamp sim1 - lastTimestamp)) in
  let acc := (accumulatedSeconds w + delta / inject_Z frequency)%Q in
  if negb (Qle_bool acc cycleTime)
  then mkWorld (g_map w) (set_isAFixedUpdate true sim1) (acc - cycleTime)%Q
  else mkWorld (g_map w) (set_isAFixedUpdate false sim1) acc.

(** [SDL_AppIterate] without the drawing calls.  The second component
    counts the calls of [simulateConwayIteration] made by this
    invocation. *)
Definition SDL_AppIterate (counter frequency : Z) (w : World) : World * nat :=
  let w1 := tickSimulationTimer counter frequency w in
  let '(w2, calls) :=
    if (isPlaying (g_sim w1) || shouldRunFrame (g_sim w1))
       && isAFixedUpdate (g_sim w1)
    then (mkWorld (simulateConwayIteration (g_map w1))
                  (set_shouldRunFrame false (g_sim w1))
                  (accumulatedSeconds w1), 1%nat)
    else (w1, 0%nat) in
  let w3 :=
    if isPlaying (g_sim w2)
    then with_sim (set_timestamp (wrap64 (timestamp (g_sim w2) + 1)) (g_sim w2)) w2
    else w2 in
  (w3, calls).

(** Successive [SDL_AppIterate] calls, one per counter reading, with no
    event in between: the state after each call, paired with the number of
    [simulateConwayIteration] calls that invocation made. *)
Fixpoint runIterations (frequency : Z) (counters : list Z) (w : World)
  : list (World * nat) :=
  match counters with
  | [] => []
  | c :: rest =>
      let r := SDL_AppIterate c frequency w in
      r :: runIterations frequency rest r.1
  end.

(** [n] successive [tickSimulationTimer] calls, the counter reading
    advancing by [step] between calls. *)
Fixpoint tickEvery (frequency step : Z) (n : nat) (w : World) : World :=
  match n with
  | O => w
  | S k =>
      tickEvery frequency step k
        (tickSimulationTimer (wrap64 (timestamp (g_sim w) + step)) frequency w)
  end.

(** ** Interaction controller *)

Definition handleSimulationReset (m : MapSystem) : MapSystem :=
  foldl (fun m ij => writeAlive false m (cellIndex ij.1 ij.2)) m scanOrder.

(** A scan of the grid that returns at the first cell passing [test]. *)
Fixpoint firstCell (test : nat → bool) (cells : list (Z * Z)) : CellPtr :=
  match cells with
  | [] => None
  | (i, j) :: rest =>
      if test (cellIndex i j) then Some (cellIndex i j) else firstCell test rest
  end.

Section Interaction.

(** [SDL_PointInRectFloat] of the SDL3 headers. *)
Variable SDL_PointInRectFloat : SDL_FPoint → SDL_FRect → bool.

(** The test of the lookup loop on cell offset [k]; SDL answers false
    for a null rectangle. *)
Definition pointInCell (m : MapSystem) (point : SDL_FPoint) (k : nat) : bool :=
  match cellMap m !! k with
  | Some c =>
      match frect c with
      | Some ri =>
          match cellDrawList m !! ri with
          | Some r => SDL_PointInRectFloat point r
          | None => false
          end
      | None => false
      end
  | None => false
  end.

(** [getCellUnderPoint]: the first cell in scan order whose rectangle
    holds the point, else [nullptr]. *)
Definition getCellUnderPoint (m : MapSystem) (x y : Q) : CellPtr :=
  let point := mkFPoint x y in
  firstCell (pointInCell m point) scanOrder.

Definition setCellUnderPoint (m : MapSystem) (x y : Q) (action : CellSetAction)
  : MapSystem :=
  match getCellUnderPoint m x y with
  | None => m
  | Some cell =>
      match action with
      | CELL_SET_ALIVE => writeAlive true m cell
      | CELL_SET_DEAD => writeAlive false m cell
      | CELL_TOGGLE => writeAlive (negb (ptrAlive m (Some cell))) m cell
      end
  end.

Definition handleDragStart (m : MapSystem) (x y : Q) : MapSystem :=
  set_dragStartCell (getCellUnderPoint m x y) m.

Definition handleDragMotion (m : MapSystem) (x y : Q) : MapSystem :=
  match dragStartCell m with
  | None => m
  | Some _ =>
      let action :=
        if ptrAlive m (dragStartCell m) then CELL_SET_ALIVE else CELL_SET_DEAD in
      setCellUnderPoint m x y action
  end.

Definition SDL_AppEvent (w : World) (event : SDL_Event) : World * SDL_AppResult :=
  match event with
  | SDL_EVENT_QUIT => (w, SDL_APP_SUCCESS)
  | SDL_EVENT_MOUSE_BUTTON_DOWN button x y =>
      if button =? SDL_BUTTON_LEFT
      then
        let sim := set_isPlaying false (g_sim w) in
        let m1 := setCellUnderPoint (g_map w) x y CELL_TOGGLE in
        let m2 := handleDragStart m1 x y in
        (mkWorld m2 sim (accumulatedSeconds w), SDL_APP_CONTINUE)
      else (w, SDL_APP_CONTINUE)
  | SDL_EVENT_MOUSE_MOTION state x y =>
      if state =? SDL_BUTTON_LMASK
      then
        let sim := set_isPlaying false (g_sim w) in
        (mkWorld (handleDragMotion (g_map w) x y) sim (accumulatedSeconds w),
         SDL_APP_CONTINUE)
      else (w, SDL_APP_CONTINUE)
  | SDL_EVENT_KEY_DOWN key =>
      if key =? SDLK_P
      then (with_sim (set_isPlaying (negb (isPlaying (g_sim w))) (g_sim w)) w,
            SDL_APP_CONTINUE)
      else if key =? SDLK_PERIOD
      then (with_sim (set_shouldRunFrame true (g_sim w)) w, SDL_APP_CONTINUE)
      else if key =? SDLK_R
      then (with_map (handleSimulationReset (g_map w)) w, SDL_APP_CONTINUE)
      else (w, SDL_APP_CONTINUE)
  | SDL_EVENT_OTHER => (w, SDL_APP_CONTINUE)
  end.

(** A drag: successive [handleDragMotion] calls along a path of pointer
    positions. *)
Definition dragAlong (m : MapSystem) (path : list (Q * Q)) : MapSystem :=
  foldl (λ m pt, handleDragMotion m pt.1 pt.2) m path.

(** The cells under the positions of a path, in path order. *)
Definition dragHits (m : MapSystem) (path : list (Q * Q)) : list nat :=
  omap (λ pt, getCellUnderPoint m pt.1 pt.2) path.

End Interaction.

(** [SDL_PointInRectFloat] as SDL3 defines it: both edges inclusive. *)
Definition pointInRectInclusive (p : SDL_FPoint) (r : SDL_FRect) : bool :=
  Qle_bool (rect_x r) (point_x p) && Qle_bool (point_x p) (rect_x r + rect_w r)
  && Qle_bool (rect_y r) (point_y p) && Qle_bool (point_y p) (rect_y r + rect_h r).

(** ** The callback loop *)

(** SDL drives the program by calling [SDL_AppEvent] and [SDL_AppIterate]
    one at a time, in some interleaving. *)
Inductive Callback :=
  | OnEvent (event : SDL_Event)
  | OnIterate (counter : Z).

Section Callbacks.

Variable SDL_PointInRectFloat : SDL_FPoint → SDL_FRect → bool.
Variable frequency : Z.

Definition dispatch (w : World) (cb : Callback) : World :=
  match cb with
  | OnEvent event => (SDL_AppEvent SDL_PointInRectFloat w event).1
  | OnIterate counter => (SDL_AppIterate counter frequency w).1
  end.

Definition runApp (cbs : list Callback) (w : World) : World :=
  foldl dispatch w cbs.

End Callbacks.

(** ** Notions used in the statements *)

(** The two guards of the test loop, on cell offset [p] of grid [m]. *)
Definition stagedForDeath (m : MapSystem) (p : nat) : bool :=
  ptrAlive m (Some p)
  && ((getNumLiveNeighbors m p <? 2) || (getNumLiveNeighbors m p >? 3)).

Definition stagedForBirth (m : MapSystem) (p : nat) : bool :=
  negb (ptrAlive m (Some p)) && (getNumLiveNeighbors m p =? 3).

(** The due signal of each iteration of a run, and the number of
    generation advances each one made. *)
Definition dueFlags (trace : list (World * nat)) : list bool :=
  (λ r, isAFixedUpdate (g_sim r.1)) <$> trace.

Definition advances (trace : list (World * nat)) : list nat := snd <$> trace.



(** The elapsed seconds [tickSimulationTimer] adds for a counter reading. *)
Definition elapsedSeconds (counter frequency : Z) (w : World) : Q :=
  (inject_Z (wrap64 (counter - timestamp (g_sim w))) / inject_Z frequency)%Q.

(** The coordinates of the cells of the grid. *)
Definition inGrid (ij : Z * Z) : Prop :=
  0 ≤ ij.1 < GRID_SIZE_X ∧ 0 ≤ ij.2 < GRID_SIZE_Y.

(** The neighbour lists of all cells, in memory order. *)
Definition topology (m : MapSystem) : list (list CellPtr) :=
  neighbors <$> cellMap m.

(** The Moore neighbourhood of [(i, j)] on the torus, in the order
    left, left-top, left-bottom, right, right-top, right-bottom, top,
    bottom: coordinate [-1] is [GRID_SIZE - 1] and [GRID_SIZE] is [0]. *)
Definition toroidalMoore (i j : Z) : list CellPtr :=
  let l := (i - 1) mod GRID_SIZE_X in
  let r := (i + 1) mod GRID_SIZE_X in
  let t := (j - 1) mod GRID_SIZE_Y in
  let b := (j + 1) mod GRID_SIZE_Y in
  [ Some (cellIndex l j); Some (cellIndex l t); Some (cellIndex l b);
    Some (cellIndex r j); Some (cellIndex r t); Some (cellIndex r b);
    Some (cellIndex i t); Some (cellIndex i b) ].

(** ** Concrete states *)

(** The state right after start-up, counter reading 0. *)
Definition startWorld : World := SDL_AppInit 0.

(** The horizontal blinker (1,2), (2,2), (3,2) on the constructed grid. *)
Definition blinkerMap : MapSystem :=
  foldl (writeAlive true) initialMap [cellIndex 1 2; cellIndex 2 2; cellIndex 3 2].

(** The 2x2 block (1,1), (2,1), (1,2), (2,2) on the constructed grid. *)
Definition blockMap : MapSystem :=
  foldl (writeAlive true) initialMap
    [cellIndex 1 1; cellIndex 2 1; cellIndex 1 2; cellIndex 2 2].

(** The coordinates of the live cells of the grid, in scan order. *)
Definition liveCells (m : MapSystem) : list (Z * Z) :=
  filter (λ ij, ptrAlive m (Some (cellOf ij)) = true) scanOrder.

(** Paused, after the [.] key. *)
Definition steppingWorld : World :=
  (SDL_AppEvent pointInRectInclusive startWorld (SDL_EVENT_KEY_DOWN SDLK_PERIOD)).1.

(** Playing, after the [P] key. *)
Definition playingWorld : World :=
  (SDL_AppEvent pointInRectInclusive startWorld (SDL_EVENT_KEY_DOWN SDLK_P)).1.

(** After a left click at (10, 10), inside the rectangle of cell (0, 0). *)
Definition clickedWorld : World :=
  (SDL_AppEvent pointInRectInclusive startWorld
     (SDL_EVENT_MOUSE_BUTTON_DOWN SDL_BUTTON_LEFT 10 10)).1.

(** ** Layout of the constructed grid *)

(** Offset of the rectangle of cell [(i, j)] in [cellDrawList]. *)
Definition rectIndex (i j : Z) : nat := Z.to_nat (GRID_SIZE_X * j + i).

(** The rectangle the construction loop writes for cell [(i, j)]. *)
Definition cellRect (i j : Z) : SDL_FRect :=
  mkFRect
    (inject_Z GRID_GAP / 2 + inject_Z i * (CELL_WIDTH + inject_Z GRID_GAP))%Q
    (inject_Z GRID_GAP / 2 + inject_Z j * (CELL_HEIGHT + inject_Z GRID_GAP))%Q
    CELL_WIDTH CELL_HEIGHT.

(** The cell the construction loop writes at [(i, j)]. *)
Definition builtCell (i j : Z) : Cell :=
  mkCell false (Some (rectIndex i j)) (wiredNeighbors i j) aliveCellColor i j.

(** The point [(x, y)] lies in the rectangle of cell [(i, j)], edges
    included: a square of side 19 whose corner is at [1/2 + 20 i],
    [1/2 + 20 j]. *)
Definition inCellRect (x y : Q) (i j : Z) : Prop :=
  ((1 # 2) + 20 * inject_Z i <= x)%Q ∧ (x <= (39 # 2) + 20 * inject_Z i)%Q
  ∧ ((1 # 2) + 20 * inject_Z j <= y)%Q ∧ (y <= (39 # 2) + 20 * inject_Z j)%Q.

(** Everything about the map that is written during construction only:
    the rectangles, their count, and per cell the rectangle pointer, the
    colour and the position. *)
Definition layout (m : MapSystem)
  : list SDL_FRect * Z * list (RectPtr * Color * Z * Z) :=
  (cellDrawList m, cellCount m,
   (λ c, (frect c, color c, cell_x c, cell_y c)) <$> cellMap m).

(** A cell pointer that is null or points at a cell of the grid that is
    present in the array. *)
Definition validPtr (m : MapSystem) (p : CellPtr) : Prop :=
  match p with
  | None => True
  | Some k => is_Some (cellMap m !! k) ∧ ∃ i j, inGrid (i, j) ∧ k = cellIndex i j
  end.

(** ** Clock runs *)

(** Successive [tickSimulationTimer] calls, one per counter reading: the
    state after each call. *)
Fixpoint tickTrace (frequency : Z) (counters : list Z) (w : World) : list World :=
  match counters with
  | [] => []
  | c :: rest =>
      let w1 := tickSimulationTimer c frequency w in
      w1 :: tickTrace frequency rest w1
  end.

(** The number of calls of a clock run that set the due signal. *)
Definition dueCount (trace : list World) : nat :=
  length (filter (λ w, isAFixedUpdate (g_sim w) = true) trace).

(** Counter readings that never go backwards, starting from [t]. *)
Fixpoint nonDecreasing (t : Z) (counters : list Z) : Prop :=
  match counters with
  | [] => True
  | c :: rest => t ≤ c ∧ nonDecreasing c rest
  end.

(** ** Rendering *)

(** The renderer as the program observes it: the current draw colour
    (four [Uint8]) and the drawing calls made so far, oldest first, each
    with the draw colour in effect when it was made. *)
Inductive RenderCall :=
  | CallRenderClear (c : Color)
  | CallRenderFillRects (c : Color) (rects : list SDL_FRect)
  | CallRenderFillRect (c : Color) (rect : option SDL_FRect)
  | CallRenderPresent.

Record SDL_Renderer := mkRenderer {
  drawColor : Color;
  renderCalls : list RenderCall
}.

Definition wrap8 (z : Z) : Z := z mod 256.

(** Conversion of the four [int] components to [Uint8] arguments. *)
Definition toUint8 (c : Color) : Color :=
  mkColor (wrap8 (color_r c)) (wrap8 (color_g c)) (wrap8 (color_b c))
          (wrap8 (color_a c)).

Definition SDL_SetRenderDrawColor (c : Color) (rd : SDL_Renderer) : SDL_Renderer :=
  mkRenderer (toUint8 c) (renderCalls rd).

Definition SDL_GetRenderDrawColor (rd : SDL_Renderer) : Color := drawColor rd.

Definition SDL_RenderClear (rd : SDL_Renderer) : SDL_Renderer :=
  mkRenderer (drawColor rd) (renderCalls rd ++ [CallRenderClear (drawColor rd)]).

Definition SDL_RenderFillRects (rects : list SDL_FRect) (count : Z)
    (rd : SDL_Renderer) : SDL_Renderer :=
  mkRenderer (drawColor rd)
    (renderCalls rd
     ++ [CallRenderFillRects (drawColor rd) (take (Z.to_nat count) rects)]).

Definition SDL_RenderFillRect (rect : option SDL_FRect) (rd : SDL_Renderer)
  : SDL_Renderer :=
  mkRenderer (drawColor rd)
    (renderCalls rd ++ [CallRenderFillRect (drawColor rd) rect]).

Definition SDL_RenderPresent (rd : SDL_Renderer) : SDL_Renderer :=
  mkRenderer (drawColor rd) (renderCalls rd ++ [CallRenderPresent]).

(** A C [for (init; cond; incr) body] loop on a state: [cond] gives the
    state after evaluating the condition together with its value. *)
Fixpoint forLoop {St : Type} (fuel : nat) (cond : St → St * bool)
    (body incr : St → St) (s : St) : option St :=
  match fuel with
  | O => None
  | S k =>
      let '(s1, go) := cond s in
      if go then forLoop k cond body incr (incr (body s1)) else Some s1
  end.

(** The variables of the [WITH_RENDER_COLOR] loop: the saved colour
    [or, og, ob, oa], [flag], and the renderer. *)
Record MacroState := mkMacro {
  savedColor : Color;
  flag : Z;
  renderer : SDL_Renderer
}.

(** Condition of the macro loop: read the draw colour into the saved
    colour, set the macro's colour, test [flag != 1]. *)
Definition macroCond (c : Color) (s : MacroState) : MacroState * bool :=
  let saved := SDL_GetRenderDrawColor (renderer s) in
  (mkMacro saved (flag s) (SDL_SetRenderDrawColor c (renderer s)),
   negb (flag s =? 1)).

(** Increment of the macro loop: set the saved colour, [flag = 1]. *)
Definition macroIncr (s : MacroState) : MacroState :=
  mkMacro (savedColor s) 1 (SDL_SetRenderDrawColor (savedColor s) (renderer s)).

Definition macroBody (body : SDL_Renderer → SDL_Renderer) (s : MacroState)
  : MacroState :=
  mkMacro (savedColor s) (flag s) (body (renderer s)).

(** The macro loop with its initial state; the saved colour is
    indeterminate at first and written before it is read. *)
Definition WITH_RENDER_COLOR_loop (fuel : nat) (c : Color)
    (body : SDL_Renderer → SDL_Renderer) (rd : SDL_Renderer) : option MacroState :=
  forLoop fuel (macroCond c) (macroBody body) macroIncr
    (mkMacro (mkColor 0 0 0 0) 0 rd).

(** [WITH_RENDER_COLOR(renderer, color) body]: the renderer the loop
    leaves behind. *)
Definition WITH_RENDER_COLOR (c : Color) (body : SDL_Renderer → SDL_Renderer)
    (rd : SDL_Renderer) : SDL_Renderer :=
  from_option renderer rd (WITH_RENDER_COLOR_loop 2 c body rd).

Definition drawMap (m : MapSystem) (rd : SDL_Renderer) : SDL_Renderer :=
  WITH_RENDER_COLOR deadCellColor
    (SDL_RenderFillRects (cellDrawList m) (cellCount m)) rd.

(** [cell->frect] as the rectangle it points at. *)
Definition rectOf (m : MapSystem) (c : Cell) : option SDL_FRect :=
  match frect c with
  | Some ri => cellDrawList m !! ri
  | None => None
  end.

(** Body of the loop of [drawActiveCells] for one [(i, j)]. *)
Definition drawCell (m : MapSystem) (rd : SDL_Renderer) (ij : Z * Z)
  : SDL_Renderer :=
  match cellMap m !! cellOf ij with
  | Some cell =>
      if isAlive cell
      then WITH_RENDER_COLOR (color cell) (SDL_RenderFillRect (rectOf m cell)) rd
      else rd
  | None => rd
  end.

Definition drawActiveCells (m : MapSystem) (rd : SDL_Renderer) : SDL_Renderer :=
  foldl (drawCell m) rd scanOrder.

(** [SDL_AppIterate] with its drawing calls: clear, tick and simulate,
    draw the map and the live cells, present. *)
Definition SDL_AppIterate_drawn (counter frequency : Z) (w : World)
    (rd : SDL_Renderer) : World * SDL_Renderer :=
  let rd1 := SDL_RenderClear
               (SDL_SetRenderDrawColor (mkColor 33 33 33 SDL_ALPHA_OPAQUE) rd) in
  let w1 := (SDL_AppIterate counter frequency w).1 in
  let rd2 := drawActiveCells (g_map w1) (drawMap (g_map w1) rd1) in
  (w1, SDL_RenderPresent rd2).

(** The fill call [drawActiveCells] makes for a cell, if it makes one. *)
Definition liveFill (m : MapSystem) (ij : Z * Z) : option RenderCall :=
  match cellMap m !! cellOf ij with
  | Some cell =>
      if isAlive cell
      then Some (CallRenderFillRect (toUint8 (color cell)) (rectOf m cell))
      else None
  | None => None
  end.

(** * Properties *)

(** ** Scan order and in-place liveness writes *)

Lemma elem_of_scanOrder (i j : Z) :
  (i, j) ∈ scanOrder ↔ (0 ≤ i < GRID_SIZE_X ∧ 0 ≤ j < GRID_SIZE_Y).
Proof.
  unfold scanOrder. rewrite list_elem_of_bind. split.
  - intros (j' & Hin & Hj). apply list_elem_of_bind in Hin as (i' & Hin & Hi).
    apply list_elem_of_singleton in Hin. inversion Hin; subst.
    apply elem_of_seqZ in Hi, Hj. lia.
  - intros [Hi Hj]. exists j. split; [|apply elem_of_seqZ; lia].
    apply list_elem_of_bind. exists i. split; [apply list_elem_of_singleton; done|].
    apply elem_of_seqZ; lia.
Qed.

Lemma set_isAlive_idemp (v : bool) (c : option Cell) :
  set_isAlive v <$> (set_isAlive v <$> c) = set_isAlive v <$> c.
Proof. by destruct c. Qed.

Lemma cellMap_writeAlive (v : bool) (m : MapSystem) (q p : nat) :
  cellMap (writeAlive v m q) !! p =
  if decide (q = p) then set_isAlive v <$> cellMap m !! p else cellMap m !! p.
Proof.
  unfold writeAlive; simpl. rewrite list_lookup_alter.
  destruct (decide (q = p)); by subst.
Qed.

Lemma cellMap_foldl_writeAlive (v : bool) (l : list nat) (m : MapSystem) (p : nat) :
  cellMap (foldl (writeAlive v) m l) !! p =
  if decide (p ∈ l) then set_isAlive v <$> cellMap m !! p else cellMap m !! p.
Proof.
  revert m. induction l as [|q l IH]; intros m; simpl.
  - destruct (decide (p ∈ [])) as [Hin|]; [by apply elem_of_nil in Hin|done].
  - rewrite IH, cellMap_writeAlive.
    destruct (decide (p ∈ l)) as [Hl|Hl], (decide (q = p)) as [Hq|Hq],
             (decide (p ∈ q :: l)) as [Hc|Hc];
      try done; try (by rewrite set_isAlive_idemp).
    + exfalso; apply Hc; by right.
    + exfalso; apply Hc; by right.
    + exfalso; apply Hc; subst; by left.
    + apply elem_of_cons in Hc as [->|]; done.
Qed.

Lemma foldl_writeAlive_frame (v : bool) (l : list nat) (m : MapSystem) :
  cellDrawList (foldl (writeAlive v) m l) = cellDrawList m
  ∧ cellCount (foldl (writeAlive v) m l) = cellCount m
  ∧ dragStartCell (foldl (writeAlive v) m l) = dragStartCell m
  ∧ neighbors <$> cellMap (foldl (writeAlive v) m l) = neighbors <$> cellMap m
  ∧ frect <$> cellMap (foldl (writeAlive v) m l) = frect <$> cellMap m.
Proof.
  revert m. induction l as [|q l IH]; intros m; simpl; [done|].
  destruct (IH (writeAlive v m q)) as (-> & -> & -> & -> & ->). simpl.
  repeat split; apply list_eq; intros k; rewrite !list_lookup_fmap,
    list_lookup_alter; destruct (decide (q = k)) as [->|]; try done;
    by destruct (cellMap m !! k).
Qed.

(** ** The test loop of the rule engine *)

Lemma staged_disjoint (m : MapSystem) (p : nat) :
  stagedForDeath m p = true → stagedForBirth m p = false.
Proof.
  unfold stagedForDeath, stagedForBirth.
  destruct (ptrAlive m (Some p)); simpl; [done|discriminate].
Qed.

Lemma testCell_guards (m : MapSystem) (st : Staged) (i j : Z) :
  testCell m st (i, j) =
  if stagedForDeath m (cellIndex i j)
  then mkStaged (cellsToBirth st) (cellsToKill st ++ [cellIndex i j])
  else if stagedForBirth m (cellIndex i j)
  then mkStaged (cellsToBirth st ++ [cellIndex i j]) (cellsToKill st)
  else st.
Proof. reflexivity. Qed.

(** The staging arrays after the test loop: the cells passing each guard,
    in scan order. *)
Lemma foldl_testCell (m : MapSystem) (l : list (Z * Z)) (st : Staged) :
  foldl (testCell m) st l =
  mkStaged
    (cellsToBirth st ++ filter (λ p, stagedForBirth m p = true) (cellOf <$> l))
    (cellsToKill st ++ filter (λ p, stagedForDeath m p = true) (cellOf <$> l)).
Proof.
  revert st. induction l as [|[i j] l IH]; intros st.
  - simpl. rewrite !app_nil_r. by destruct st.
  - cbn [foldl]. rewrite IH, testCell_guards, fmap_cons. clear IH.
    change (cellOf (i, j)) with (cellIndex i j).
    destruct (stagedForDeath m (cellIndex i j)) eqn:Hd.
    + pose proof (staged_disjoint _ _ Hd) as Hb. cbn [cellsToBirth cellsToKill].
      rewrite filter_cons_False, filter_cons_True, <- app_assoc by congruence.
      done.
    + destruct (stagedForBirth m (cellIndex i j)) eqn:Hb;
        cbn [cellsToBirth cellsToKill].
      * rewrite filter_cons_True, filter_cons_False, <- app_assoc by congruence.
        done.
      * rewrite !filter_cons_False by congruence. done.
Qed.

Lemma ptrAlive_Some (m : MapSystem) (p : nat) :
  ptrAlive m (Some p)
  = match cellMap m !! p with Some c => isAlive c | None => false end.
Proof. reflexivity. Qed.

Lemma ptrAlive_lookup (m : MapSystem) (p : nat) (c : Cell) :
  cellMap m !! p = Some c → ptrAlive m (Some p) = isAlive c.
Proof. unfold ptrAlive; simpl. by intros ->. Qed.

Lemma staged_scan (m : MapSystem) (i j : Z) :
  0 ≤ i < GRID_SIZE_X → 0 ≤ j < GRID_SIZE_Y →
  let st := foldl (testCell m) (mkStaged [] []) scanOrder in
  (cellIndex i j ∈ cellsToBirth st ↔ stagedForBirth m (cellIndex i j) = true)
  ∧ (cellIndex i j ∈ cellsToKill st ↔ stagedForDeath m (cellIndex i j) = true).
Proof.
  intros Hi Hj st. subst st. rewrite foldl_testCell. cbn [cellsToBirth cellsToKill].
  rewrite !app_nil_l, !list_elem_of_filter.
  assert (cellIndex i j ∈ cellOf <$> scanOrder) as Hin.
  { apply list_elem_of_fmap. exists (i, j). split; [done|].
    by apply elem_of_scanOrder. }
  tauto.
Qed.

(** ** Liveness writes keep the topology *)

Lemma topology_writeAlive (v : bool) (m : MapSystem) (p : nat) :
  topology (writeAlive v m p) = topology m.
Proof.
  unfold topology, writeAlive; simpl. apply list_eq; intros k.
  rewrite !list_lookup_fmap, list_lookup_alter.
  destruct (decide (p = k)) as [->|]; [|done]. by destruct (cellMap m !! k).
Qed.

Lemma topology_foldl_writeAlive (v : bool) (l : list nat) (m : MapSystem) :
  topology (foldl (writeAlive v) m l) = topology m.
Proof. unfold topology. by destruct (foldl_writeAlive_frame v l m) as (_ & _ & _ & -> & _). Qed.

Lemma handleSimulationReset_foldl (m : MapSystem) :
  handleSimulationReset m = foldl (writeAlive false) m (cellOf <$> scanOrder).
Proof.
  unfold handleSimulationReset. generalize scanOrder. intros l. revert m.
  induction l as [|ij l IH]; intros m; simpl; [done|]. apply IH.
Qed.

Create Rewrite HintDb topology.

#[global] Hint Rewrite topology_writeAlive topology_foldl_writeAlive : topology.

Lemma topology_simulateConwayIteration (m : MapSystem) :
  topology (simulateConwayIteration m) = topology m.
Proof. unfold simulateConwayIteration. by autorewrite with topology. Qed.

Lemma topology_handleSimulationReset (m : MapSystem) :
  topology (handleSimulationReset m) = topology m.
Proof. rewrite handleSimulationReset_foldl. by autorewrite with topology. Qed.

#[global] Hint Rewrite topology_simulateConwayIteration
  topology_handleSimulationReset : topology.

Section TopologyPreserved.

Variable pir : SDL_FPoint → SDL_FRect → bool.

Lemma topology_setCellUnderPoint (m : MapSystem) (x y : Q) (a : CellSetAction) :
  topology (setCellUnderPoint pir m x y a) = topology m.
Proof.
  unfold setCellUnderPoint. destruct (getCellUnderPoint pir m x y); [|done].
  destruct a; by autorewrite with topology.
Qed.

Lemma topology_handleDragMotion (m : MapSystem) (x y : Q) :
  topology (handleDragMotion pir m x y) = topology m.
Proof.
  unfold handleDragMotion. destruct (dragStartCell m); [|done].
  apply topology_setCellUnderPoint.
Qed.

Lemma topology_SDL_AppEvent (w : World) (e : SDL_Event) :
  topology (g_map (SDL_AppEvent pir w e).1) = topology (g_map w).
Proof.
  destruct e as [|button x y|state x y|key|]; cbn [SDL_AppEvent]; try done.
  - destruct (button =? SDL_BUTTON_LEFT); [|done].
    apply topology_setCellUnderPoint.
  - destruct (state =? SDL_BUTTON_LMASK); [|done].
    apply topology_handleDragMotion.
  - destruct (key =? SDLK_P); [done|]. destruct (key =? SDLK_PERIOD); [done|].
    destruct (key =? SDLK_R); [|done]. cbn [fst with_map g_map].
    by autorewrite with topology.
Qed.

End TopologyPreserved.

Lemma g_map_tickSimulationTimer (counter frequency : Z) (w : World) :
  g_map (tickSimulationTimer counter frequency w) = g_map w.
Proof. unfold tickSimulationTimer. by destruct (negb _). Qed.

Lemma topology_SDL_AppIterate (counter frequency : Z) (w : World) :
  topology (g_map (SDL_AppIterate counter frequency w).1) = topology (g_map w).
Proof.
  unfold SDL_AppIterate.
  pose proof (g_map_tickSimulationTimer counter frequency w) as Ht.
  destruct (tickSimulationTimer counter frequency w) as [m1 s1 a1].
  simpl in *. subst m1.
  destruct ((isPlaying s1 || shouldRunFrame s1) && isAFixedUpdate s1); simpl;
    destruct (isPlaying s1); simpl; try done;
    apply topology_simulateConwayIteration.
Qed.

Lemma topology_runApp (pir : SDL_FPoint → SDL_FRect → bool) (frequency : Z)
    (cbs : list Callback) (w : World) :
  topology (g_map (runApp pir frequency cbs w)) = topology (g_map w).
Proof.
  unfold runApp. revert w. induction cbs as [|cb cbs IH]; intros w; simpl; [done|].
  rewrite IH. destruct cb; simpl;
    [apply topology_SDL_AppEvent|apply topology_SDL_AppIterate].
Qed.

(** ** Grid construction *)

Lemma cellIndex_inj (i j i' j' : Z) :
  inGrid (i, j) → inGrid (i', j') →
  cellIndex i j = cellIndex i' j' → i = i' ∧ j = j'.
Proof.
  unfold inGrid, cellIndex, GRID_SIZE_X, GRID_SIZE_Y; simpl.
  intros Hij Hij' Heq. apply Z2Nat.inj in Heq; lia.
Qed.

Lemma cellIndex_lt (i j : Z) :
  inGrid (i, j) → (cellIndex i j < Z.to_nat (GRID_SIZE_X * GRID_SIZE_Y))%nat.
Proof.
  unfold inGrid, cellIndex, GRID_SIZE_X, GRID_SIZE_Y; simpl.
  intros Hij. apply Z2Nat.inj_lt; lia.
Qed.

Lemma length_cellMap_foldl_initCell (l : list (Z * Z)) (m : MapSystem) :
  length (cellMap (foldl initCell m l)) = length (cellMap m).
Proof.
  revert m. induction l as [|[i j] l IH]; intros m; simpl; [done|].
  rewrite IH. simpl. apply length_insert.
Qed.

Lemma neighborsOf_foldl_initCell (l : list (Z * Z)) (m : MapSystem) (i j : Z) :
  Forall inGrid l → inGrid (i, j) →
  (cellIndex i j < length (cellMap m))%nat →
  neighborsOf (foldl initCell m l) (cellIndex i j) =
  if decide ((i, j) ∈ l) then wiredNeighbors i j
  else neighborsOf m (cellIndex i j).
Proof.
  intros Hl Hij. revert m.
  induction Hl as [|[i' j'] l Ha Hl IH]; intros m Hlen; simpl.
  - destruct (decide ((i, j) ∈ [])) as [Hin|]; [by apply elem_of_nil in Hin|done].
  - rewrite IH by (simpl; by rewrite length_insert).
    destruct (decide ((i, j) ∈ l)) as [Hin|Hnin].
    + rewrite decide_True; [done|by right].
    + unfold neighborsOf at 1; simpl.
      destruct (decide ((i, j) = (i', j'))) as [Heq|Hne].
      * inversion Heq; subst. rewrite decide_True by (by left).
        by rewrite list_lookup_insert_eq.
      * rewrite decide_False.
        -- rewrite list_lookup_insert_ne; [done|].
           intros Hidx. apply cellIndex_inj in Hidx as [-> ->]; done.
        -- intros [?|?]%elem_of_cons; done.
Qed.

Lemma Forall_inGrid_scanOrder : Forall inGrid scanOrder.
Proof.
  apply Forall_forall. intros [i j] Hin. by apply elem_of_scanOrder in Hin.
Qed.

Lemma length_cellMap_initialMap :
  length (cellMap initialMap) = Z.to_nat (GRID_SIZE_X * GRID_SIZE_Y).
Proof.
  unfold initialMap. rewrite length_cellMap_foldl_initCell.
  unfold zeroMap. cbn [cellMap]. apply length_replicate.
Qed.

Lemma neighborsOf_initialMap (i j : Z) :
  inGrid (i, j) → neighborsOf initialMap (cellIndex i j) = wiredNeighbors i j.
Proof.
  intros Hij. unfold initialMap.
  rewrite neighborsOf_foldl_initCell; [|apply Forall_inGrid_scanOrder|done|].
  - rewrite decide_True; [done|]. by apply elem_of_scanOrder.
  - unfold zeroMap. cbn [cellMap]. rewrite length_replicate. by apply cellIndex_lt.
Qed.

(** The two wrap-around tests of the construction loop compute residues. *)
Lemma wrap_previous (n i : Z) :
  0 ≤ i < n → (if i - 1 <? 0 then n - 1 else i - 1) = (i - 1) mod n.
Proof.
  intros Hi. destruct (Z.ltb_spec (i - 1) 0) as [Hneg|Hpos].
  - replace (i - 1) with (-1 * n + (n - 1)) by lia.
    rewrite Z.add_comm, Z.mod_add, Z.mod_small; lia.
  - rewrite Z.mod_small; lia.
Qed.

Lemma wrap_next (n i : Z) :
  0 ≤ i < n → (if i + 1 >=? n then 0 else i + 1) = (i + 1) mod n.
Proof.
  intros Hi. rewrite Z.geb_leb. destruct (Z.leb_spec n (i + 1)) as [Hge|Hlt].
  - replace (i + 1) with n by lia. by rewrite Z.mod_same by lia.
  - rewrite Z.mod_small; lia.
Qed.

Lemma wiredNeighbors_toroidal (i j : Z) :
  inGrid (i, j) → wiredNeighbors i j = toroidalMoore i j.
Proof.
  intros [Hi Hj]. simpl in Hi, Hj. unfold wiredNeighbors, toroidalMoore.
  by rewrite !wrap_previous, !wrap_next.
Qed.

(** Membership in a toroidal neighbourhood, in coordinates: the neighbour
    is one step away on the torus in at least one direction. *)
Lemma elem_of_toroidalMoore (i j i' j' : Z) :
  inGrid (i, j) → inGrid (i', j') →
  Some (cellIndex i' j') ∈ toroidalMoore i j ↔
  (i' = (i - 1) mod GRID_SIZE_X ∨ i' = i ∨ i' = (i + 1) mod GRID_SIZE_X)
  ∧ (j' = (j - 1) mod GRID_SIZE_Y ∨ j' = j ∨ j' = (j + 1) mod GRID_SIZE_Y)
  ∧ (i', j') ≠ (i, j).
Proof.
  intros Hij Hij'. unfold toroidalMoore. cbv zeta.
  assert (inGrid ((i - 1) mod GRID_SIZE_X, j) ∧ inGrid ((i + 1) mod GRID_SIZE_X, j)
          ∧ inGrid (i, (j - 1) mod GRID_SIZE_Y) ∧ inGrid (i, (j + 1) mod GRID_SIZE_Y)
          ∧ (i - 1) mod GRID_SIZE_X ≠ i ∧ (i + 1) mod GRID_SIZE_X ≠ i
          ∧ (j - 1) mod GRID_SIZE_Y ≠ j ∧ (j + 1) mod GRID_SIZE_Y ≠ j) as Hw.
  { unfold inGrid, GRID_SIZE_X, GRID_SIZE_Y in *; simpl in *.
    Z.div_mod_to_equations. lia. }
  revert Hw. generalize ((i - 1) mod GRID_SIZE_X) ((i + 1) mod GRID_SIZE_X)
    ((j - 1) mod GRID_SIZE_Y) ((j + 1) mod GRID_SIZE_Y).
  intros l r t b (Hl & Hr & Ht & Hb & Hli & Hri & Htj & Hbj).
  unfold inGrid in *; simpl in *.
  rewrite !elem_of_cons, elem_of_nil. split.
  - intros [H|[H|[H|[H|[H|[H|[H|[H|[]]]]]]]]]; inversion H as [Hidx];
      apply cellIndex_inj in Hidx as [-> ->]; unfold inGrid; simpl;
      try lia; (split; [tauto|]; split; [tauto|]; intros [=]; lia).
  - intros ([-> |[-> | ->]] & [-> |[-> | ->]] & Hne); tauto.
Qed.

Lemma toroidalMoore_sym (i j i' j' : Z) :
  inGrid (i, j) → inGrid (i', j') →
  Some (cellIndex i' j') ∈ toroidalMoore i j →
  Some (cellIndex i j) ∈ toroidalMoore i' j'.
Proof.
  intros Hij Hij'. rewrite !elem_of_toroidalMoore by done.
  intros (Hi & Hj & Hne). unfold inGrid, GRID_SIZE_X, GRID_SIZE_Y in *.
  simpl in *. split; [|split].
  - Z.div_mod_to_equations. lia.
  - Z.div_mod_to_equations. lia.
  - intros [= -> ->]. by apply Hne.
Qed.

Lemma toroidalMoore_cells (i j : Z) :
  inGrid (i, j) →
  NoDup (toroidalMoore i j)
  ∧ ∀ q, q ∈ toroidalMoore i j →
      ∃ i' j', inGrid (i', j') ∧ (i', j') ≠ (i, j) ∧ q = Some (cellIndex i' j').
Proof.
  intros Hij. unfold toroidalMoore. cbv zeta.
  assert (inGrid ((i - 1) mod GRID_SIZE_X, (j - 1) mod GRID_SIZE_Y)
          ∧ inGrid ((i + 1) mod GRID_SIZE_X, (j + 1) mod GRID_SIZE_Y)
          ∧ (i - 1) mod GRID_SIZE_X ≠ i ∧ (i + 1) mod GRID_SIZE_X ≠ i
          ∧ (i - 1) mod GRID_SIZE_X ≠ (i + 1) mod GRID_SIZE_X
          ∧ (j - 1) mod GRID_SIZE_Y ≠ j ∧ (j + 1) mod GRID_SIZE_Y ≠ j
          ∧ (j - 1) mod GRID_SIZE_Y ≠ (j + 1) mod GRID_SIZE_Y) as Hw.
  { unfold inGrid, GRID_SIZE_X, GRID_SIZE_Y in *; simpl in *.
    Z.div_mod_to_equations. lia. }
  revert Hw. generalize ((i - 1) mod GRID_SIZE_X) ((i + 1) mod GRID_SIZE_X)
    ((j - 1) mod GRID_SIZE_Y) ((j + 1) mod GRID_SIZE_Y).
  intros l r t b ([Hl Ht] & [Hr Hb] & Hli & Hri & Hlr & Htj & Hbj & Htb).
  destruct Hij as [Hi Hj]. simpl in *. split.
  - repeat (apply NoDup_cons; split); try apply NoDup_nil;
      rewrite ?not_elem_of_cons; repeat split; try apply not_elem_of_nil;
      intros [=Hidx]; apply cellIndex_inj in Hidx as [? ?];
      unfold inGrid; simpl; lia.
  - intros q. rewrite !elem_of_cons, elem_of_nil.
    intros [-> |[-> |[-> |[-> |[-> |[-> |[-> |[-> |[]]]]]]]]];
      eexists _, _; (split; [|split; [|reflexivity]]);
      unfold inGrid; simpl; try lia; intros [=]; lia.
Qed.

(** C7.  On the grid built by [SDL_AppInit], every cell [(i, j)] has as its
    neighbour list exactly its toroidal Moore neighbourhood: 8 entries, no
    null entry, no repetition, each one a cell of the grid other than the
    cell itself; the left neighbour of [(0, 0)] is [(GRID_SIZE_X - 1, 0)];
    the relation is symmetric; and no sequence of [SDL_AppEvent] and
    [SDL_AppIterate] calls changes any neighbour list. *)
Theorem AppInit_topology (counter : Z) :
  let m := g_map (SDL_AppInit counter) in
  (∀ i j, 0 ≤ i < GRID_SIZE_X → 0 ≤ j < GRID_SIZE_Y →
     neighborsOf m (cellIndex i j) = toroidalMoore i j
     ∧ length (neighborsOf m (cellIndex i j)) = NUM_CELL_NEIGHBORS
     ∧ NoDup (neighborsOf m (cellIndex i j))
     ∧ ∀ q, q ∈ neighborsOf m (cellIndex i j) →
         ∃ i' j', 0 ≤ i' < GRID_SIZE_X ∧ 0 ≤ j' < GRID_SIZE_Y
                  ∧ (i', j') ≠ (i, j)
                  ∧ q = Some (cellIndex i' j')
                  ∧ is_Some (cellMap m !! cellIndex i' j'))
  ∧ neighborsOf m (cellIndex 0 0) !! 0%nat
    = Some (Some (cellIndex (GRID_SIZE_X - 1) 0))
  ∧ (∀ i j i' j',
       0 ≤ i < GRID_SIZE_X → 0 ≤ j < GRID_SIZE_Y →
       0 ≤ i' < GRID_SIZE_X → 0 ≤ j' < GRID_SIZE_Y →
       Some (cellIndex i' j') ∈ neighborsOf m (cellIndex i j)
       ↔ Some (cellIndex i j) ∈ neighborsOf m (cellIndex i' j'))
  ∧ (∀ pir frequency cbs,
       topology (g_map (runApp pir frequency cbs (SDL_AppInit counter)))
       = topology m).
Proof.
  cbv zeta. change (g_map (SDL_AppInit counter)) with initialMap.
  assert (∀ i j, 0 ≤ i < GRID_SIZE_X → 0 ≤ j < GRID_SIZE_Y →
            neighborsOf initialMap (cellIndex i j) = toroidalMoore i j) as Hnb.
  { intros i j Hi Hj. rewrite neighborsOf_initialMap by done.
    by apply wiredNeighbors_toroidal. }
  split; [|split; [|split]].
  - intros i j Hi Hj. rewrite (Hnb i j Hi Hj).
    destruct (toroidalMoore_cells i j) as [Hnd Hq]; [done|].
    split; [reflexivity|]. split; [reflexivity|]. split; [exact Hnd|].
    intros q Hin. destruct (Hq q Hin) as (i' & j' & [Hi' Hj'] & Hne & ->).
    exists i', j'. simpl in Hi', Hj'.
    split; [exact Hi'|]. split; [exact Hj'|]. split; [exact Hne|].
    split; [reflexivity|]. apply lookup_lt_is_Some.
    rewrite length_cellMap_initialMap. by apply cellIndex_lt.
  - rewrite Hnb by (unfold GRID_SIZE_X, GRID_SIZE_Y; lia). reflexivity.
  - intros i j i' j' Hi Hj Hi' Hj'. rewrite !Hnb by assumption.
    split; apply toroidalMoore_sym; done.
  - intros pir frequency cbs. apply topology_runApp.
Qed.

(** ** Rule engine: one generation *)

Lemma countLoop (m : MapSystem) (nbrs : list CellPtr) (k s : nat) (a : Z) :
  foldl (λ numLiveNeighbors i,
           if ptrAlive m (mjoin (nbrs !! i))
           then numLiveNeighbors + 1 else numLiveNeighbors) a (seq s k)
  = a + Z.of_nat (length (filter (λ q, ptrAlive m q = true)
                                 (take k (drop s nbrs)))).
Proof.
  unfold CellPtr in *. revert s a. induction k as [|k IH]; intros s a.
  - simpl. lia.
  - cbn [seq foldl]. rewrite IH. destruct (nbrs !! s) as [q|] eqn:Hs.
    + rewrite (drop_S _ _ _ Hs). cbn [take mjoin option_join].
      destruct (ptrAlive m q) eqn:Hq.
      * rewrite filter_cons_True by done. cbn [length]. lia.
      * rewrite filter_cons_False by congruence. done.
    + apply lookup_ge_None in Hs.
      rewrite !drop_ge by lia. by rewrite !take_nil.
Qed.

Lemma getNumLiveNeighbors_filter (m : MapSystem) (p : nat) :
  getNumLiveNeighbors m p
  = Z.of_nat (length (filter (λ q, ptrAlive m q = true)
                             (take NUM_CELL_NEIGHBORS (neighborsOf m p)))).
Proof. unfold getNumLiveNeighbors. cbv zeta. rewrite countLoop, drop_0. lia. Qed.

Lemma neighborsOf_topology (m m' : MapSystem) (p : nat) :
  topology m = topology m' → neighborsOf m p = neighborsOf m' p.
Proof.
  unfold topology, neighborsOf. intros Ht.
  apply (f_equal (.!! p)) in Ht. rewrite !list_lookup_fmap in Ht.
  destruct (cellMap m !! p), (cellMap m' !! p); simpl in *; congruence.
Qed.

(** C1.  One call of [simulateConwayIteration] gives every cell of the grid
    the Conway successor of its state, with the live-neighbour count taken
    on the grid as it was before the call.  The count [n] is the number of
    live cells, on the grid before the call, among the cell's eight
    neighbour pointers; on a grid wired by [SDL_AppInit] these are the eight
    cells around it on the torus.  A live cell with [n] below 2 or above 3
    is dead afterwards, a dead cell with [n] exactly 3 is alive, every other
    cell keeps its state, and nothing but [isAlive] is written. *)
Theorem simulateConwayIteration_rule (m : MapSystem) (i j : Z) (c : Cell) :
  0 ≤ i < GRID_SIZE_X → 0 ≤ j < GRID_SIZE_Y →
  cellMap m !! cellIndex i j = Some c →
  let n := getNumLiveNeighbors m (cellIndex i j) in
  n = Z.of_nat (length (filter (λ q, ptrAlive m q = true)
                               (take NUM_CELL_NEIGHBORS (neighbors c))))
  ∧ (topology m = topology initialMap →
     n = Z.of_nat (length (filter (λ q, ptrAlive m q = true)
                                  (toroidalMoore i j))))
  ∧ ∃ c', cellMap (simulateConwayIteration m) !! cellIndex i j = Some c'
    ∧ c' = set_isAlive (isAlive c') c
    ∧ (isAlive c = true → n < 2 ∨ n > 3 → isAlive c' = false)
    ∧ (isAlive c = false → n = 3 → isAlive c' = true)
    ∧ (¬ (isAlive c = true ∧ (n < 2 ∨ n > 3)) → ¬ (isAlive c = false ∧ n = 3) →
       isAlive c' = isAlive c).
Proof.
  intros Hi Hj Hc n. set (p := cellIndex i j) in *.
  assert (n = Z.of_nat (length (filter (λ q, ptrAlive m q = true)
                                       (take NUM_CELL_NEIGHBORS (neighbors c)))))
    as Hcount.
  { unfold n. rewrite getNumLiveNeighbors_filter. unfold neighborsOf.
    rewrite Hc. reflexivity. }
  split; [exact Hcount|]. clear Hcount. split.
  { intros Ht. unfold n. rewrite getNumLiveNeighbors_filter.
    rewrite (neighborsOf_topology _ _ _ Ht). clear Ht. unfold p.
    rewrite neighborsOf_initialMap, wiredNeighbors_toroidal by (by split).
    reflexivity. }
  destruct (staged_scan m i j Hi Hj) as [Hb Hk]. fold p in Hb, Hk.
  pose proof (ptrAlive_lookup m p c Hc) as Ha.
  unfold simulateConwayIteration. rewrite !cellMap_foldl_writeAlive, Hc.
  set (st := foldl (testCell m) (mkStaged [] []) scanOrder) in *.
  unfold stagedForBirth, stagedForDeath in Hb, Hk. fold n in Hb, Hk.
  rewrite Ha in Hb, Hk.
  destruct (decide (p ∈ cellsToKill st)) as [Hin|Hout].
  - exists (set_isAlive false c). apply Hk in Hin.
    apply andb_true_iff in Hin as [Hal Hn].
    split; [by destruct (decide (p ∈ cellsToBirth st))|].
    split; [done|]. split; [done|]. split; [congruence|].
    intros Hnot _. exfalso. apply Hnot. split; [done|]. lia.
  - destruct (decide (p ∈ cellsToBirth st)) as [Hin|Hout'].
    + exists (set_isAlive true c). apply Hb in Hin.
      apply andb_true_iff in Hin as [Hal Hn]. apply negb_true_iff in Hal.
      split; [done|]. split; [done|]. split; [congruence|]. split; [done|].
      intros _ Hnot. exfalso. apply Hnot. split; [done|]. lia.
    + exists c. split; [done|]. split; [by destruct c|].
      split; [|split; [|done]].
      * intros Hal Hn. exfalso. apply Hout, Hk. rewrite Hal. simpl. lia.
      * intros Hal Hn. exfalso. apply Hout', Hb. rewrite Hal. simpl. lia.
Qed.

(** ** Simulation clock *)

Lemma tickSimulationTimer_cases (counter frequency : Z) (w : World) :
  let acc := (accumulatedSeconds w + elapsedSeconds counter frequency w)%Q in
  let cycleTime := (1 / fps (g_sim w))%Q in
  let w' := tickSimulationTimer counter frequency w in
  g_map w' = g_map w
  ∧ timestamp (g_sim w') = counter
  ∧ fps (g_sim w') = fps (g_sim w)
  ∧ isPlaying (g_sim w') = isPlaying (g_sim w)
  ∧ shouldRunFrame (g_sim w') = shouldRunFrame (g_sim w)
  ∧ ((isAFixedUpdate (g_sim w') = true ∧ (cycleTime < acc)%Q
      ∧ accumulatedSeconds w' = (acc - cycleTime)%Q)
     ∨ (isAFixedUpdate (g_sim w') = false ∧ (acc <= cycleTime)%Q
        ∧ accumulatedSeconds w' = acc)).
Proof.
  unfold tickSimulationTimer, elapsedSeconds. cbv zeta.
  cbn [timestamp set_timestamp].
  destruct (Qle_bool _ _) eqn:Hle; cbn [negb]; simpl; repeat split; try done.
  - right. apply Qle_bool_iff in Hle. done.
  - left. split; [done|]. split; [|done]. apply Qnot_le_lt. intros Hc.
    apply Qle_bool_iff in Hc. congruence.
Qed.

(** C2 (as amended).  Right after a [tickSimulationTimer] call that sets the
    due signal, the accumulator is the old accumulator plus the elapsed time
    minus exactly one cycle period, and it is positive; it is below one cycle
    period exactly when old accumulator plus elapsed time was below two
    periods, since a call never takes off more than one period. *)
Theorem tick_fired_accumulator (counter frequency : Z) (w : World) :
  let w' := tickSimulationTimer counter frequency w in
  let cyclePeriod := (1 / fps (g_sim w))%Q in
  let elapsed := elapsedSeconds counter frequency w in
  isAFixedUpdate (g_sim w') = true →
  (accumulatedSeconds w' == accumulatedSeconds w + elapsed - cyclePeriod)%Q
  ∧ (0 < accumulatedSeconds w')%Q
  ∧ ((accumulatedSeconds w' < cyclePeriod)%Q
     ↔ (accumulatedSeconds w + elapsed < 2 * cyclePeriod)%Q).
Proof.
  intros w' cyclePeriod elapsed Hdue.
  destruct (tickSimulationTimer_cases counter frequency w)
    as (_ & _ & _ & _ & _ & [(_ & Hlt & Hacc)|(Hno & _)]);
    [|unfold w' in Hdue; congruence].
  fold w' cyclePeriod elapsed in Hlt, Hacc. rewrite Hacc.
  split; [reflexivity|]. split; [lra|]. split; intros; lra.
Qed.

(** With a counter that has not gone backwards the elapsed time is the
    plain difference of the readings. *)
Lemma elapsedSeconds_monotone (counter frequency : Z) (w : World) :
  0 ≤ timestamp (g_sim w) ≤ counter → counter < 2 ^ 64 →
  elapsedSeconds counter frequency w
  = (inject_Z (counter - timestamp (g_sim w)) / inject_Z frequency)%Q.
Proof.
  intros Hmono Hmax. unfold elapsedSeconds, wrap64. by rewrite Z.mod_small by lia.
Qed.

Lemma elapsedSeconds_step (frequency step : Z) (w : World) :
  0 ≤ step < 2 ^ 64 →
  elapsedSeconds (wrap64 (timestamp (g_sim w) + step)) frequency w
  = (inject_Z step / inject_Z frequency)%Q.
Proof.
  intros Hstep. unfold elapsedSeconds, wrap64.
  rewrite Zminus_mod_idemp_l.
  replace (timestamp (g_sim w) + step - timestamp (g_sim w)) with step by lia.
  by rewrite Z.mod_small.
Qed.

Lemma tick_one_period (frequency step : Z) (w : World) (a : Q) :
  0 ≤ step < 2 ^ 64 →
  (inject_Z step / inject_Z frequency == 1 / fps (g_sim w))%Q →
  (accumulatedSeconds w == a)%Q →
  let w' := tickSimulationTimer (wrap64 (timestamp (g_sim w) + step)) frequency w in
  fps (g_sim w') = fps (g_sim w)
  ∧ (isAFixedUpdate (g_sim w') = true → (0 < a)%Q ∧ (accumulatedSeconds w' == a)%Q)
  ∧ (isAFixedUpdate (g_sim w') = false →
     (a <= 0)%Q ∧ (accumulatedSeconds w' == a + 1 / fps (g_sim w))%Q).
Proof.
  intros Hstep Hper Hacc w'.
  destruct (tickSimulationTimer_cases
              (wrap64 (timestamp (g_sim w) + step)) frequency w)
    as (_ & _ & Hfps & _ & _ & Hcase).
  fold w' in Hfps, Hcase. rewrite elapsedSeconds_step in Hcase by done.
  split; [done|].
  destruct Hcase as [(-> & Hlt & ->)|(-> & Hle & ->)];
    (split; [intros ?|intros ?]); try discriminate; split; lra.
Qed.

Lemma tickEvery_steady (frequency step : Z) (n : nat) (w : World) :
  0 ≤ step < 2 ^ 64 →
  (0 < fps (g_sim w))%Q →
  (inject_Z step / inject_Z frequency == 1 / fps (g_sim w))%Q →
  (accumulatedSeconds w == 1 / fps (g_sim w))%Q →
  let w' := tickEvery frequency step (S n) w in
  fps (g_sim w') = fps (g_sim w)
  ∧ isAFixedUpdate (g_sim w') = true
  ∧ (accumulatedSeconds w' == 1 / fps (g_sim w))%Q.
Proof.
  intros Hstep Hfps. revert w Hfps.
  assert (∀ f : Q, (0 < f)%Q → (0 < 1 / f)%Q) as Hpos.
  { intros f Hf. unfold Qdiv. rewrite Qmult_1_l. by apply Qinv_lt_0_compat. }
  induction n as [|n IH]; intros w Hfps Hper Hacc;
    destruct (tick_one_period frequency step w _ Hstep Hper Hacc)
      as (Hf & Hdue & Hnot);
    specialize (Hpos _ Hfps);
    set (w1 := tickSimulationTimer _ frequency w) in *;
    assert (isAFixedUpdate (g_sim w1) = true) as Hfire
      by (destruct (isAFixedUpdate (g_sim w1)); [done|];
          destruct Hnot as [Hc _]; [done|lra]);
    destruct (Hdue Hfire) as [_ Hacc1].
  - simpl. fold w1. done.
  - change (tickEvery frequency step (S (S n)) w)
      with (tickEvery frequency step (S n) w1).
    rewrite <- Hf in *. by apply IH.
Qed.

(** C3 (as amended).  From an empty accumulator, with counter readings that
    advance by exactly one cycle period per call, the first
    [tickSimulationTimer] call does not set the due signal and leaves one
    full period in the accumulator; every later call sets the due signal and
    leaves the accumulator at exactly one period again. *)
Theorem tick_every_period (frequency step : Z) (n : nat) (w : World) :
  (accumulatedSeconds w == 0)%Q →
  0 ≤ step < 2 ^ 64 →
  (0 < fps (g_sim w))%Q →
  (inject_Z step / inject_Z frequency == 1 / fps (g_sim w))%Q →
  let first := tickEvery frequency step 1 w in
  let later := tickEvery frequency step (S (S n)) w in
  isAFixedUpdate (g_sim first) = false
  ∧ (accumulatedSeconds first == 1 / fps (g_sim w))%Q
  ∧ isAFixedUpdate (g_sim later) = true
  ∧ (accumulatedSeconds later == 1 / fps (g_sim w))%Q.
Proof.
  intros Hacc Hstep Hfps Hper first later.
  destruct (tick_one_period frequency step w _ Hstep Hper Hacc)
    as (Hf & Hdue & Hnot).
  change (tickSimulationTimer _ frequency w) with first in Hf, Hdue, Hnot.
  assert (isAFixedUpdate (g_sim first) = false) as Hfirst.
  { destruct (isAFixedUpdate (g_sim first)); [|done].
    destruct Hdue as [Hc _]; [done|lra]. }
  destruct (Hnot Hfirst) as [_ Hacc1].
  assert (accumulatedSeconds first == 1 / fps (g_sim w))%Q as Hacc1' by lra.
  split; [done|]. split; [done|].
  change later with (tickEvery frequency step (S n) first).
  rewrite <- Hf in *.
  by destruct (tickEvery_steady frequency step n first) as (_ & ? & ?).
Qed.

(** ** Orchestrator: the per-iteration protocol *)

(** What one [SDL_AppIterate] call does to each part of the state; [go] is
    the guard of the advance, read after the clock has ticked. *)
Lemma SDL_AppIterate_spec (counter frequency : Z) (w : World) :
  let r := SDL_AppIterate counter frequency w in
  let w1 := tickSimulationTimer counter frequency w in
  let go := (isPlaying (g_sim w) || shouldRunFrame (g_sim w))
            && isAFixedUpdate (g_sim w1) in
  isPlaying (g_sim r.1) = isPlaying (g_sim w)
  ∧ isAFixedUpdate (g_sim r.1) = isAFixedUpdate (g_sim w1)
  ∧ fps (g_sim r.1) = fps (g_sim w)
  ∧ accumulatedSeconds r.1 = accumulatedSeconds w1
  ∧ timestamp (g_sim r.1)
    = (if isPlaying (g_sim w) then wrap64 (counter + 1) else counter)
  ∧ shouldRunFrame (g_sim r.1) = (if go then false else shouldRunFrame (g_sim w))
  ∧ g_map r.1 = (if go then simulateConwayIteration (g_map w) else g_map w)
  ∧ r.2 = (if go then 1%nat else 0%nat).
Proof.
  cbv zeta. unfold SDL_AppIterate.
  destruct (tickSimulationTimer_cases counter frequency w)
    as (Hm & Ht & Hf & Hp & Hs & _).
  destruct (tickSimulationTimer counter frequency w) as [m1 [d1 t1 f1 p1 s1] a1].
  simpl in *. subst. destruct (isPlaying (g_sim w)), (shouldRunFrame (g_sim w)), d1;
    simpl; done.
Qed.


Lemma sum_list_replicate_0 (n : nat) : sum_list (replicate n 0%nat) = 0%nat.
Proof. induction n; simpl; done. Qed.


(** Paused with no request pending: nothing advances, nothing changes. *)
Lemma paused_idle (frequency : Z) (counters : list Z) (w : World) :
  isPlaying (g_sim w) = false → shouldRunFrame (g_sim w) = false →
  let trace := runIterations frequency counters w in
  advances trace = replicate (length trace) 0%nat
  ∧ ∀ k r, trace !! k = Some r →
      isPlaying (g_sim r.1) = false ∧ shouldRunFrame (g_sim r.1) = false
      ∧ g_map r.1 = g_map w.
Proof.
  revert w. induction counters as [|c rest IH]; intros w Hp Hs; simpl.
  - split; [done|]. intros k r Hk. by rewrite lookup_nil in Hk.
  - destruct (SDL_AppIterate_spec c frequency w)
      as (Hp1 & _ & _ & _ & _ & Hs1 & Hm1 & Hn1).
    cbv zeta in *. rewrite Hp, Hs in *. simpl in *.
    destruct (IH _ Hp1 Hs1) as [Hadv Hall]. split.
    + unfold advances in *. simpl. by rewrite Hn1, Hadv.
    + intros [|k] r Hk; simpl in Hk.
      * by inversion Hk; subst.
      * destruct (Hall k r Hk) as (? & ? & ->). done.
Qed.






(** ** Interaction controller *)

Lemma ptrAlive_writeAlive (v : bool) (m : MapSystem) (p q : nat) :
  ptrAlive (writeAlive v m p) (Some q) =
  if decide (p = q) then (if cellMap m !! q is Some _ then v else false)
  else ptrAlive m (Some q).
Proof.
  unfold ptrAlive. simpl. rewrite list_lookup_alter.
  destruct (decide (p = q)) as [->|]; [|done]. by destruct (cellMap m !! q).
Qed.

Lemma firstCell_Some (test : nat → bool) (cells : list (Z * Z)) (p : nat) :
  firstCell test cells = Some p →
  test p = true ∧ ∃ i j, (i, j) ∈ cells ∧ p = cellIndex i j.
Proof.
  induction cells as [|[i j] cells IH]; simpl; [done|].
  destruct (test (cellIndex i j)) eqn:Ht.
  - intros [= <-]. split; [done|]. exists i, j. split; [by left|done].
  - intros Hf. destruct (IH Hf) as (? & i' & j' & ? & ?). split; [done|].
    exists i', j'. split; [by right|done].
Qed.

Lemma firstCell_None (test : nat → bool) (cells : list (Z * Z)) (i j : Z) :
  firstCell test cells = None → (i, j) ∈ cells → test (cellIndex i j) = false.
Proof.
  induction cells as [|[i' j'] cells IH]; simpl.
  - intros _ Hin. by apply elem_of_nil in Hin.
  - destruct (test (cellIndex i' j')) eqn:Ht; [done|].
    intros Hf [[= -> ->]|Hin]%elem_of_cons; [done|by apply IH].
Qed.

Lemma firstCell_ext (test test' : nat → bool) (cells : list (Z * Z)) :
  (∀ k, test k = test' k) → firstCell test cells = firstCell test' cells.
Proof.
  intros Hext. induction cells as [|[i j] cells IH]; simpl; [done|].
  by rewrite Hext, IH.
Qed.

Section InteractionTheorems.

Variable pir : SDL_FPoint → SDL_FRect → bool.

Lemma pointInCell_writeAlive (v : bool) (m : MapSystem) (p : nat)
    (point : SDL_FPoint) (k : nat) :
  pointInCell pir (writeAlive v m p) point k = pointInCell pir m point k.
Proof.
  unfold pointInCell. simpl. rewrite list_lookup_alter.
  destruct (decide (p = k)) as [->|]; [|done]. by destruct (cellMap m !! k).
Qed.

Lemma getCellUnderPoint_writeAlive (v : bool) (m : MapSystem) (p : nat) (x y : Q) :
  getCellUnderPoint pir (writeAlive v m p) x y = getCellUnderPoint pir m x y.
Proof.
  unfold getCellUnderPoint. apply firstCell_ext. intros k.
  apply pointInCell_writeAlive.
Qed.

Lemma getCellUnderPoint_Some (m : MapSystem) (x y : Q) (p : nat) :
  getCellUnderPoint pir m x y = Some p →
  pointInCell pir m (mkFPoint x y) p = true
  ∧ is_Some (cellMap m !! p)
  ∧ ∃ i j, inGrid (i, j) ∧ p = cellIndex i j.
Proof.
  intros Hg. apply firstCell_Some in Hg as (Ht & i & j & Hin & ->).
  split; [done|]. split.
  - unfold pointInCell in Ht. by destruct (cellMap m !! cellIndex i j).
  - exists i, j. split; [by apply elem_of_scanOrder in Hin|done].
Qed.

Lemma getCellUnderPoint_None (m : MapSystem) (x y : Q) (i j : Z) :
  getCellUnderPoint pir m x y = None → inGrid (i, j) →
  pointInCell pir m (mkFPoint x y) (cellIndex i j) = false.
Proof.
  intros Hg Hin. apply (firstCell_None _ scanOrder); [done|].
  by apply elem_of_scanOrder.
Qed.

(** C5.  A left-button pointer-down event pauses the simulation, toggles
    the cell under the pointer (the first cell in scan order whose rectangle
    holds the position) and no other cell, and makes that cell the drag
    anchor, whose liveness read through the anchor is then the toggled one.
    With no rectangle under the pointer no cell changes and the anchor is
    null. *)
Theorem pointer_down_left (w : World) (x y : Q) :
  let hit := getCellUnderPoint pir (g_map w) x y in
  let w' := (SDL_AppEvent pir w
               (SDL_EVENT_MOUSE_BUTTON_DOWN SDL_BUTTON_LEFT x y)).1 in
  isPlaying (g_sim w') = false
  ∧ dragStartCell (g_map w') = hit
  ∧ match hit with
    | Some p =>
        pointInCell pir (g_map w) (mkFPoint x y) p = true
        ∧ cellMap (g_map w')
          = alter (λ c, set_isAlive (negb (isAlive c)) c) p (cellMap (g_map w))
        ∧ ptrAlive (g_map w') (dragStartCell (g_map w'))
          = negb (ptrAlive (g_map w) (Some p))
    | None =>
        (∀ i j, inGrid (i, j) →
           pointInCell pir (g_map w) (mkFPoint x y) (cellIndex i j) = false)
        ∧ cellMap (g_map w') = cellMap (g_map w)
    end.
Proof.
  cbv zeta. cbn [SDL_AppEvent]. rewrite Z.eqb_refl. cbn [fst g_sim g_map].
  split; [done|]. unfold handleDragStart, setCellUnderPoint.
  cbn [dragStartCell set_dragStartCell cellMap].
  destruct (getCellUnderPoint pir (g_map w) x y) as [p|] eqn:Hhit.
  - rewrite getCellUnderPoint_writeAlive, Hhit.
    destruct (getCellUnderPoint_Some _ _ _ _ Hhit) as (Hin & [c Hc] & _).
    split; [done|]. split; [done|]. split.
    + unfold writeAlive. simpl. apply list_eq. intros k.
      rewrite !list_lookup_alter. destruct (decide (p = k)) as [<-|]; [|done].
      rewrite Hc. simpl. by rewrite (ptrAlive_lookup _ _ _ Hc).
    + unfold ptrAlive at 1. cbn [set_dragStartCell cellMap].
      fold (ptrAlive (writeAlive (negb (ptrAlive (g_map w) (Some p))) (g_map w) p)
                     (Some p)).
      rewrite ptrAlive_writeAlive, decide_True by done. by rewrite Hc.
  - rewrite Hhit. split; [done|]. split; [|done].
    intros i j Hij. by apply getCellUnderPoint_None.
Qed.

(** C9.  A mouse-motion event whose button mask is exactly the left button
    pauses the simulation; with no drag anchor, or with no cell under the
    pointer, it changes nothing else. *)
Theorem left_motion_pauses (w : World) (x y : Q) :
  let w' := (SDL_AppEvent pir w
               (SDL_EVENT_MOUSE_MOTION SDL_BUTTON_LMASK x y)).1 in
  isPlaying (g_sim w') = false
  ∧ (dragStartCell (g_map w) = None
     ∨ getCellUnderPoint pir (g_map w) x y = None →
     g_map w' = g_map w
     ∧ g_sim w' = set_isPlaying false (g_sim w)
     ∧ accumulatedSeconds w' = accumulatedSeconds w).
Proof.
  cbv zeta. cbn [SDL_AppEvent]. rewrite Z.eqb_refl. cbn [fst g_sim g_map].
  split; [done|]. intros Hcase. split; [|done].
  unfold handleDragMotion, setCellUnderPoint.
  destruct (dragStartCell (g_map w)); [|done].
  destruct Hcase as [?| ->]; done.
Qed.

End InteractionTheorems.

Lemma scanOrder_covers (p : nat) :
  (p < Z.to_nat (GRID_SIZE_X * GRID_SIZE_Y))%nat →
  p ∈ cellOf <$> scanOrder.
Proof.
  intros Hp. apply list_elem_of_fmap.
  exists (Z.of_nat p / GRID_SIZE_Y, Z.of_nat p mod GRID_SIZE_Y).
  unfold cellOf, cellIndex, GRID_SIZE_X, GRID_SIZE_Y in *. simpl in *. split.
  - rewrite Z.mul_comm, <- Z.div_mod by lia. by rewrite Nat2Z.id.
  - apply elem_of_scanOrder. unfold GRID_SIZE_X, GRID_SIZE_Y.
    assert (0 ≤ Z.of_nat p < 1600) as Hz by lia.
    Z.div_mod_to_equations. lia.
Qed.

Lemma getNumLiveNeighbors_dead (m : MapSystem) (p : nat) :
  (∀ q, ptrAlive m q = false) → getNumLiveNeighbors m p = 0.
Proof.
  intros Hdead. unfold getNumLiveNeighbors. cbv zeta.
  generalize (seq 0 NUM_CELL_NEIGHBORS). generalize 0.
  intros n l. revert n. induction l as [|i l IH]; intros n; simpl; [done|].
  by rewrite Hdead, IH.
Qed.

Section PaintAndReset.

Variable pir : SDL_FPoint → SDL_FRect → bool.

Lemma dragHits_writeAlive (v : bool) (m : MapSystem) (p : nat) (path : list (Q * Q)) :
  dragHits pir (writeAlive v m p) path = dragHits pir m path.
Proof.
  unfold dragHits. induction path as [|pt path IH]; csimpl; [done|].
  by rewrite getCellUnderPoint_writeAlive, IH.
Qed.

Lemma dragHits_cons (m : MapSystem) (x y : Q) (path : list (Q * Q)) :
  dragHits pir m ((x, y) :: path)
  = match getCellUnderPoint pir m x y with
    | Some q => q :: dragHits pir m path
    | None => dragHits pir m path
    end.
Proof. reflexivity. Qed.

Lemma dragAlong_cons (m : MapSystem) (x y : Q) (path : list (Q * Q)) :
  dragAlong pir m ((x, y) :: path) = dragAlong pir (handleDragMotion pir m x y) path.
Proof. reflexivity. Qed.

(** A drag with an anchor is a series of writes of the anchor's liveness
    into the cells under the path. *)
Lemma dragAlong_writes (m : MapSystem) (path : list (Q * Q)) (a : nat) :
  dragStartCell m = Some a →
  dragAlong pir m path
  = foldl (writeAlive (ptrAlive m (Some a))) m (dragHits pir m path).
Proof.
  revert m. induction path as [|[x y] path IH]; intros m Ha; [done|].
  rewrite dragAlong_cons, dragHits_cons.
  unfold handleDragMotion, setCellUnderPoint. rewrite Ha.
  destruct (getCellUnderPoint pir m x y) as [q|] eqn:Hhit.
  - set (v := ptrAlive m (Some a)).
    destruct (getCellUnderPoint_Some pir _ _ _ _ Hhit) as (_ & [c Hc] & _).
    assert (ptrAlive (writeAlive v m q) (Some a) = v) as Hv.
    { rewrite ptrAlive_writeAlive. destruct (decide (q = a)) as [->|]; [|done].
      by rewrite Hc. }
    assert (dragStartCell (writeAlive v m q) = Some a) as Ha' by done.
    cbn [foldl]. rewrite <- (dragHits_writeAlive v m q path).
    rewrite <- Hv at 2. rewrite <- (IH _ Ha'). by destruct v.
  - by apply IH.
Qed.

(** C6.  During a drag with an anchor, every motion event writes the
    anchor's liveness into the cell under the pointer: [CELL_SET_ALIVE] for
    a live anchor, [CELL_SET_DEAD] for a dead one.  So after any path every
    cell the pointer passed over has the anchor's state (alive for a live
    anchor, never toggled back; dead for a dead anchor), the anchor keeps
    its state, and cells off the path are untouched.  Without an anchor a
    drag changes nothing. *)
Theorem drag_paints_anchor_state (m : MapSystem) (path : list (Q * Q)) :
  let m' := dragAlong pir m path in
  match dragStartCell m with
  | None => m' = m
  | Some a =>
      let action :=
        if ptrAlive m (Some a) then CELL_SET_ALIVE else CELL_SET_DEAD in
      (∀ x y, handleDragMotion pir m x y = setCellUnderPoint pir m x y action)
      ∧ dragStartCell m' = Some a
      ∧ ptrAlive m' (Some a) = ptrAlive m (Some a)
      ∧ (∀ pt q, pt ∈ path → getCellUnderPoint pir m pt.1 pt.2 = Some q →
           ptrAlive m' (Some q) = ptrAlive m (Some a))
      ∧ (∀ q, q ∉ dragHits pir m path → cellMap m' !! q = cellMap m !! q)
  end.
Proof.
  cbv zeta. destruct (dragStartCell m) as [a|] eqn:Ha.
  - rewrite (dragAlong_writes m path a Ha).
    set (v := ptrAlive m (Some a)). set (hits := dragHits pir m path).
    assert (∀ q, ptrAlive (foldl (writeAlive v) m hits) (Some q)
                 = if decide (q ∈ hits)
                   then (if cellMap m !! q is Some _ then v else false)
                   else ptrAlive m (Some q)) as Hptr.
    { intros q. unfold ptrAlive at 1. simpl.
      rewrite cellMap_foldl_writeAlive. destruct (decide (q ∈ hits)); [|done].
      by destruct (cellMap m !! q). }
    split; [|split; [|split; [|split]]].
    + intros x y. unfold handleDragMotion. by rewrite Ha.
    + by destruct (foldl_writeAlive_frame v hits m) as (_ & _ & -> & _).
    + rewrite Hptr. destruct (decide (a ∈ hits)); [|done].
      unfold v, ptrAlive. simpl. by destruct (cellMap m !! a).
    + intros pt q Hpt Hhit. rewrite Hptr.
      destruct (getCellUnderPoint_Some pir _ _ _ _ Hhit) as (_ & [c Hc] & _).
      rewrite Hc, decide_True; [done|].
      unfold hits, dragHits. apply list_elem_of_omap. by exists pt.
    + intros q Hq. rewrite cellMap_foldl_writeAlive. by rewrite decide_False.
  - unfold dragAlong. induction path as [|pt path IH]; simpl; [done|].
    unfold handleDragMotion at 2. by rewrite Ha.
Qed.

(** C8.  A reset request ([R] key) on the 40x40 grid leaves no cell alive,
    so every live-neighbour count is 0, and it leaves [isPlaying], like the
    rest of the simulation state, as it was. *)
Theorem reset_clears_grid (w : World) :
  length (cellMap (g_map w)) = Z.to_nat (GRID_SIZE_X * GRID_SIZE_Y) →
  let w' := (SDL_AppEvent pir w (SDL_EVENT_KEY_DOWN SDLK_R)).1 in
  g_map w' = handleSimulationReset (g_map w)
  ∧ (∀ p c, cellMap (g_map w') !! p = Some c → isAlive c = false)
  ∧ (∀ q, ptrAlive (g_map w') q = false)
  ∧ (∀ p, getNumLiveNeighbors (g_map w') p = 0)
  ∧ isPlaying (g_sim w') = isPlaying (g_sim w)
  ∧ g_sim w' = g_sim w.
Proof.
  intros Hlen. cbv zeta. cbn [SDL_AppEvent].
  change (SDLK_R =? SDLK_P) with false. change (SDLK_R =? SDLK_PERIOD) with false.
  rewrite Z.eqb_refl. cbn [fst with_map g_map g_sim].
  assert (∀ p c, cellMap (handleSimulationReset (g_map w)) !! p = Some c →
                 isAlive c = false) as Hcells.
  { intros p c. rewrite handleSimulationReset_foldl, cellMap_foldl_writeAlive.
    intros Hc. rewrite decide_True in Hc.
    - destruct (cellMap (g_map w) !! p); [|done]. by injection Hc as <-.
    - apply scanOrder_covers. rewrite <- Hlen.
      destruct (decide _) in Hc; [|by apply lookup_lt_Some in Hc].
      destruct (cellMap (g_map w) !! p) eqn:Hp; [|done].
      by apply lookup_lt_Some in Hp. }
  assert (∀ q, ptrAlive (handleSimulationReset (g_map w)) q = false) as Hdead.
  { intros [p|]; [|done]. rewrite ptrAlive_Some.
    destruct (cellMap (handleSimulationReset (g_map w)) !! p) eqn:Hp; [|done].
    by apply Hcells in Hp. }
  repeat split; try done. intros p. by apply getNumLiveNeighbors_dead.
Qed.

End PaintAndReset.

(** * Concrete runs *)

(** ** Clock *)

(** C2, counterexample.  From the start-up state (accumulator 0, 20
    generations per second) one tick 150 counts later at 1000 counts per
    second is due, and leaves 0.1 s in the accumulator: two full cycle
    periods, not less than one. *)
Lemma tick_excess_reaches_period :
  (accumulatedSeconds startWorld == 0)%Q
  ∧ timestamp (g_sim startWorld) ≤ 150
  ∧ isAFixedUpdate (g_sim (tickSimulationTimer 150 1000 startWorld)) = true
  ∧ ¬ (accumulatedSeconds (tickSimulationTimer 150 1000 startWorld)
       < 1 / fps (g_sim startWorld))%Q
  ∧ (accumulatedSeconds (tickSimulationTimer 150 1000 startWorld)
     == 2 * (1 / fps (g_sim startWorld)))%Q.
Proof.
  split; [reflexivity|]. split; [vm_compute; discriminate|].
  split; [vm_compute; reflexivity|]. split; [|vm_compute; reflexivity].
  intros Hlt. vm_compute in Hlt. discriminate Hlt.
Qed.

Lemma tick_fired_accumulator_witness :
  isAFixedUpdate (g_sim (tickSimulationTimer 150 1000 startWorld)) = true
  ∧ (accumulatedSeconds (tickSimulationTimer 150 1000 startWorld)
     == accumulatedSeconds startWorld + elapsedSeconds 150 1000 startWorld
        - 1 / fps (g_sim startWorld))%Q
  ∧ (0 < accumulatedSeconds (tickSimulationTimer 150 1000 startWorld))%Q
  ∧ ((accumulatedSeconds (tickSimulationTimer 150 1000 startWorld)
      < 1 / fps (g_sim startWorld))%Q
     ↔ (accumulatedSeconds startWorld + elapsedSeconds 150 1000 startWorld
        < 2 * (1 / fps (g_sim startWorld)))%Q).
Proof.
  split; [vm_compute; reflexivity|].
  apply (tick_fired_accumulator 150 1000 startWorld). vm_compute. reflexivity.
Defined.

(** C3, counterexample.  At 1000 counts per second and 20 generations per
    second a cycle period is 50 counts.  From the start-up state the first
    tick one period later is not due, and after the second one the
    accumulator holds a full period, not 0. *)
Lemma first_period_tick_not_due :
  (accumulatedSeconds startWorld == 0)%Q
  ∧ (inject_Z 50 / inject_Z 1000 == 1 / fps (g_sim startWorld))%Q
  ∧ isAFixedUpdate (g_sim (tickEvery 1000 50 1 startWorld)) = false
  ∧ isAFixedUpdate (g_sim (tickEvery 1000 50 2 startWorld)) = true
  ∧ ¬ (accumulatedSeconds (tickEvery 1000 50 2 startWorld) == 0)%Q.
Proof.
  split; [reflexivity|]. split; [vm_compute; reflexivity|].
  split; [vm_compute; reflexivity|]. split; [vm_compute; reflexivity|].
  intros Heq. vm_compute in Heq. discriminate Heq.
Qed.

Lemma tick_every_period_witness :
  isAFixedUpdate (g_sim (tickEvery 1000 50 1 startWorld)) = false
  ∧ (accumulatedSeconds (tickEvery 1000 50 1 startWorld)
     == 1 / fps (g_sim startWorld))%Q
  ∧ isAFixedUpdate (g_sim (tickEvery 1000 50 5 startWorld)) = true
  ∧ (accumulatedSeconds (tickEvery 1000 50 5 startWorld)
     == 1 / fps (g_sim startWorld))%Q.
Proof.
  apply (tick_every_period 1000 50 3 startWorld).
  - reflexivity.
  - lia.
  - vm_compute. reflexivity.
  - vm_compute. reflexivity.
Defined.

(** ** Rule engine and grid *)

(** The dead cell (2, 1) above the middle of the blinker has exactly three
    live neighbours. *)
Example blinker_above_middle :
  ptrAlive blinkerMap (Some (cellIndex 2 1)) = false
  ∧ getNumLiveNeighbors blinkerMap (cellIndex 2 1) = 3.
Proof. vm_compute. done. Qed.

(** The blinker has period 2 and the block is a still life. *)
Example blinker_oscillates :
  liveCells (simulateConwayIteration blinkerMap) = [(2, 1); (2, 2); (2, 3)]
  ∧ liveCells (simulateConwayIteration (simulateConwayIteration blinkerMap))
    = liveCells blinkerMap.
Proof. vm_compute. done. Qed.

Example block_is_still :
  liveCells (simulateConwayIteration blockMap) = liveCells blockMap.
Proof. vm_compute. done. Qed.

Lemma simulateConwayIteration_rule_witness :
  getNumLiveNeighbors blinkerMap (cellIndex 2 1)
  = Z.of_nat (length (filter (λ q, ptrAlive blinkerMap q = true)
                             (toroidalMoore 2 1)))
  ∧ ∃ c', cellMap (simulateConwayIteration blinkerMap) !! cellIndex 2 1 = Some c'
    ∧ c' = set_isAlive (isAlive c')
             (mkCell false (Some 42%nat) (wiredNeighbors 2 1) aliveCellColor 2 1)
    ∧ (false = true →
       getNumLiveNeighbors blinkerMap (cellIndex 2 1) < 2
       ∨ getNumLiveNeighbors blinkerMap (cellIndex 2 1) > 3 →
       isAlive c' = false)
    ∧ (false = false → getNumLiveNeighbors blinkerMap (cellIndex 2 1) = 3 →
       isAlive c' = true)
    ∧ (¬ (false = true
          ∧ (getNumLiveNeighbors blinkerMap (cellIndex 2 1) < 2
             ∨ getNumLiveNeighbors blinkerMap (cellIndex 2 1) > 3)) →
       ¬ (false = false ∧ getNumLiveNeighbors blinkerMap (cellIndex 2 1) = 3) →
       isAlive c' = false).
Proof.
  destruct (simulateConwayIteration_rule blinkerMap 2 1
              (mkCell false (Some 42%nat) (wiredNeighbors 2 1) aliveCellColor 2 1))
    as (_ & Htorus & Hrule).
  - unfold GRID_SIZE_X. lia.
  - unfold GRID_SIZE_Y. lia.
  - vm_compute. reflexivity.
  - split; [|exact Hrule].
    apply Htorus. apply topology_foldl_writeAlive.
Defined.

Lemma AppInit_topology_witness :
  neighborsOf (g_map (SDL_AppInit 0)) (cellIndex 0 0) !! 0%nat
  = Some (Some (cellIndex (GRID_SIZE_X - 1) 0)).
Proof. exact (proj1 (proj2 (AppInit_topology 0))). Defined.

(** ** Orchestrator *)

(** Three iterations 100 counts apart at 1000 counts per second: every
    tick is due, only the first one advances the generation. *)
Example stepping_three_due_ticks :
  let trace := runIterations 1000 [100; 200; 300] steppingWorld in
  dueFlags trace = [true; true; true] ∧ advances trace = [1; 0; 0]%nat.
Proof. vm_compute. done. Qed.



(** ** Interaction *)

(** The click at (10, 10) lands on cell (0, 0), makes it alive and makes it
    the anchor; dragging on over (30, 10) and (50, 10) makes cells (1, 0) and
    (2, 0) alive as well. *)
Example click_then_drag :
  getCellUnderPoint pointInRectInclusive (g_map startWorld) 10 10
  = Some (cellIndex 0 0)
  ∧ dragStartCell (g_map clickedWorld) = Some (cellIndex 0 0)
  ∧ ptrAlive (g_map clickedWorld) (Some (cellIndex 0 0)) = true
  ∧ dragHits pointInRectInclusive (g_map clickedWorld) [(30, 10); (50, 10)]%Q
    = [cellIndex 1 0; cellIndex 2 0]
  ∧ ptrAlive (dragAlong pointInRectInclusive (g_map clickedWorld)
                [(30, 10); (50, 10)]%Q) (Some (cellIndex 2 0)) = true.
Proof. vm_compute. done. Qed.

Lemma reset_clears_grid_witness :
  length (cellMap (g_map clickedWorld)) = Z.to_nat (GRID_SIZE_X * GRID_SIZE_Y)
  ∧ ∀ p, getNumLiveNeighbors
           (g_map (SDL_AppEvent pointInRectInclusive clickedWorld
                     (SDL_EVENT_KEY_DOWN SDLK_R)).1) p = 0.
Proof.
  assert (length (cellMap (g_map clickedWorld))
          = Z.to_nat (GRID_SIZE_X * GRID_SIZE_Y)) as Hlen
    by (vm_compute; reflexivity).
  split; [exact Hlen|].
  exact (proj1 (proj2 (proj2 (proj2
           (reset_clears_grid pointInRectInclusive clickedWorld Hlen))))).
Defined.

(** * Further properties *)

(** ** Construction: cells and rectangles *)

Lemma rectIndex_inj (i j i' j' : Z) :
  inGrid (i, j) → inGrid (i', j') →
  rectIndex i j = rectIndex i' j' → i = i' ∧ j = j'.
Proof.
  unfold inGrid, rectIndex, GRID_SIZE_X, GRID_SIZE_Y; simpl.
  intros Hij Hij' Heq. apply Z2Nat.inj in Heq; lia.
Qed.

Lemma rectIndex_lt (i j : Z) :
  inGrid (i, j) → (rectIndex i j < Z.to_nat (GRID_SIZE_X * GRID_SIZE_Y))%nat.
Proof.
  unfold inGrid, rectIndex, GRID_SIZE_X, GRID_SIZE_Y; simpl.
  intros Hij. apply Z2Nat.inj_lt; lia.
Qed.

Lemma initCell_writes (m : MapSystem) (i j : Z) :
  initCell m (i, j) =
  mkMap (<[rectIndex i j := cellRect i j]> (cellDrawList m)) (cellCount m)
        (<[cellIndex i j := builtCell i j]> (cellMap m)) (dragStartCell m).
Proof. reflexivity. Qed.

Lemma foldl_initCell_frame (l : list (Z * Z)) (m : MapSystem) :
  cellCount (foldl initCell m l) = cellCount m
  ∧ dragStartCell (foldl initCell m l) = dragStartCell m
  ∧ length (cellDrawList (foldl initCell m l)) = length (cellDrawList m)
  ∧ length (cellMap (foldl initCell m l)) = length (cellMap m).
Proof.
  revert m. induction l as [|[i j] l IH]; intros m; [done|].
  cbn [foldl]. destruct (IH (initCell m (i, j))) as (-> & -> & -> & ->).
  rewrite initCell_writes. cbn [cellCount dragStartCell cellDrawList cellMap].
  by rewrite !length_insert.
Qed.

(** After the loop has run over [l], the slots of the cells in [l] hold
    what the loop body wrote for them, whatever was written in between. *)
Lemma foldl_initCell_lookup (l : list (Z * Z)) (m : MapSystem) (i j : Z) :
  Forall inGrid l → inGrid (i, j) →
  (cellIndex i j < length (cellMap m))%nat →
  (rectIndex i j < length (cellDrawList m))%nat →
  cellMap (foldl initCell m l) !! cellIndex i j
  = (if decide ((i, j) ∈ l) then Some (builtCell i j)
     else cellMap m !! cellIndex i j)
  ∧ cellDrawList (foldl initCell m l) !! rectIndex i j
    = (if decide ((i, j) ∈ l) then Some (cellRect i j)
       else cellDrawList m !! rectIndex i j).
Proof.
  intros Hl Hij. revert m.
  induction Hl as [|[i' j'] l Ha Hl IH]; intros m Hlc Hlr.
  - rewrite decide_False by apply not_elem_of_nil. done.
  - cbn [foldl]. rewrite initCell_writes.
    edestruct IH as [-> ->];
      [cbn [cellMap]; by rewrite length_insert
      |cbn [cellDrawList]; by rewrite length_insert|].
    cbn [cellMap cellDrawList].
    destruct (decide ((i, j) ∈ l)) as [Hin|Hnin].
    + assert ((i, j) ∈ (i', j') :: l) as Hc by (by right).
      by rewrite !(decide_True _ _ Hc).
    + destruct (decide ((i, j) = (i', j'))) as [[= -> ->]|Hne].
      * assert ((i', j') ∈ (i', j') :: l) as Hc by (by left).
        by rewrite !(decide_True _ _ Hc), !list_lookup_insert_eq.
      * assert ((i, j) ∉ (i', j') :: l) as Hc
          by (intros [?|?]%elem_of_cons; done).
        rewrite !(decide_False _ _ Hc).
        rewrite !list_lookup_insert_ne; [done| |].
        -- intros Hidx. apply rectIndex_inj in Hidx as [-> ->]; done.
        -- intros Hidx. apply cellIndex_inj in Hidx as [-> ->]; done.
Qed.

Lemma initialMap_lookup (i j : Z) :
  inGrid (i, j) →
  cellMap initialMap !! cellIndex i j = Some (builtCell i j)
  ∧ cellDrawList initialMap !! rectIndex i j = Some (cellRect i j).
Proof.
  intros Hij. unfold initialMap.
  edestruct (foldl_initCell_lookup scanOrder) as [-> ->];
    [apply Forall_inGrid_scanOrder|exact Hij| | |].
  - unfold zeroMap. cbn [cellMap]. rewrite length_replicate. by apply cellIndex_lt.
  - unfold zeroMap. cbn [cellDrawList]. rewrite length_replicate.
    by apply rectIndex_lt.
  - assert ((i, j) ∈ scanOrder) as Hc by (by apply elem_of_scanOrder).
    by rewrite !(decide_True _ _ Hc).
Qed.

Lemma cellRect_numbers (i j : Z) :
  (rect_x (cellRect i j) == (1 # 2) + 20 * inject_Z i)%Q
  ∧ (rect_y (cellRect i j) == (1 # 2) + 20 * inject_Z j)%Q
  ∧ (rect_w (cellRect i j) == 19)%Q
  ∧ (rect_h (cellRect i j) == 19)%Q.
Proof.
  assert (CELL_WIDTH == 19)%Q as Hw by reflexivity.
  assert (CELL_HEIGHT == 19)%Q as Hh by reflexivity.
  assert (inject_Z GRID_GAP == 1)%Q as Hg by reflexivity.
  unfold cellRect. cbn [rect_x rect_y rect_w rect_h].
  rewrite Hw, Hh, Hg. repeat split; try reflexivity; field.
Qed.

(** X1.  The construction loop of [SDL_AppInit] initialises every slot of
    both arrays: cell [(i, j)] is dead, carries its own position and the
    alive colour, and points at rectangle slot [GRID_SIZE_X * j + i], which
    holds the square of side 19 at [(1/2 + 20 i, 1/2 + 20 j)]; both arrays
    have 1600 entries, [cellCount] is 1600, the anchor is null and the
    simulation starts paused at 20 generations per second with an empty
    accumulator. *)
Theorem AppInit_cells (counter i j : Z) :
  0 ≤ i < GRID_SIZE_X → 0 ≤ j < GRID_SIZE_Y →
  let w := SDL_AppInit counter in
  (∃ c, cellMap (g_map w) !! cellIndex i j = Some c
        ∧ isAlive c = false ∧ cell_x c = i ∧ cell_y c = j
        ∧ color c = aliveCellColor ∧ frect c = Some (rectIndex i j)
        ∧ ∃ r, rectOf (g_map w) c = Some r
               ∧ (rect_x r == (1 # 2) + 20 * inject_Z i)%Q
               ∧ (rect_y r == (1 # 2) + 20 * inject_Z j)%Q
               ∧ (rect_w r == 19)%Q ∧ (rect_h r == 19)%Q)
  ∧ Z.of_nat (length (cellMap (g_map w))) = 1600
  ∧ Z.of_nat (length (cellDrawList (g_map w))) = 1600
  ∧ cellCount (g_map w) = 1600
  ∧ dragStartCell (g_map w) = None
  ∧ g_sim w = mkSim false counter 20 false false
  ∧ accumulatedSeconds w = 0%Q.
Proof.
  intros Hi Hj. cbv zeta. cbn [SDL_AppInit g_map g_sim accumulatedSeconds].
  destruct (initialMap_lookup i j) as [Hc Hr]; [done|].
  destruct (cellRect_numbers i j) as (Hx & Hy & Hw & Hh).
  destruct (foldl_initCell_frame scanOrder
              (mkMap (cellDrawList zeroMap) (GRID_SIZE_X * GRID_SIZE_Y)
                     (cellMap zeroMap) (dragStartCell zeroMap)))
    as (Hcount & Hanchor & Hlr & Hlc).
  fold initialMap in Hcount, Hanchor, Hlr, Hlc.
  split; [|split; [|split; [|split; [|split; [|split]]]]].
  - exists (builtCell i j). split; [exact Hc|]. repeat (split; [reflexivity|]).
    exists (cellRect i j). split; [exact Hr|]. repeat split; assumption.
  - rewrite Hlc. unfold zeroMap. cbn [cellMap].
    rewrite length_replicate, Z2Nat.id by (unfold GRID_SIZE_X, GRID_SIZE_Y; lia).
    reflexivity.
  - rewrite Hlr. unfold zeroMap. cbn [cellDrawList].
    rewrite length_replicate, Z2Nat.id by (unfold GRID_SIZE_X, GRID_SIZE_Y; lia).
    reflexivity.
  - exact Hcount.
  - exact Hanchor.
  - reflexivity.
  - reflexivity.
Qed.

(** ** The layout is written once *)

Lemma layout_writeAlive (v : bool) (m : MapSystem) (p : nat) :
  layout (writeAlive v m p) = layout m.
Proof.
  unfold layout, writeAlive. cbn [set_cellMap cellDrawList cellCount cellMap].
  f_equal. apply list_eq. intros k.
  rewrite !list_lookup_fmap, list_lookup_alter.
  destruct (decide (p = k)) as [->|]; [|done]. by destruct (cellMap m !! k).
Qed.

Lemma layout_foldl_writeAlive (v : bool) (l : list nat) (m : MapSystem) :
  layout (foldl (writeAlive v) m l) = layout m.
Proof.
  revert m. induction l as [|p l IH]; intros m; [done|].
  cbn [foldl]. by rewrite IH, layout_writeAlive.
Qed.

Lemma layout_simulateConwayIteration (m : MapSystem) :
  layout (simulateConwayIteration m) = layout m.
Proof. unfold simulateConwayIteration. by rewrite !layout_foldl_writeAlive. Qed.

Lemma layout_handleSimulationReset (m : MapSystem) :
  layout (handleSimulationReset m) = layout m.
Proof. rewrite handleSimulationReset_foldl. apply layout_foldl_writeAlive. Qed.

Lemma dragStartCell_foldl_writeAlive (v : bool) (l : list nat) (m : MapSystem) :
  dragStartCell (foldl (writeAlive v) m l) = dragStartCell m.
Proof. by destruct (foldl_writeAlive_frame v l m) as (_ & _ & -> & _). Qed.

Lemma dragStartCell_simulateConwayIteration (m : MapSystem) :
  dragStartCell (simulateConwayIteration m) = dragStartCell m.
Proof.
  unfold simulateConwayIteration. by rewrite !dragStartCell_foldl_writeAlive.
Qed.

Lemma dragStartCell_handleSimulationReset (m : MapSystem) :
  dragStartCell (handleSimulationReset m) = dragStartCell m.
Proof.
  rewrite handleSimulationReset_foldl. apply dragStartCell_foldl_writeAlive.
Qed.

Lemma layout_length (m m' : MapSystem) :
  layout m = layout m' → length (cellMap m) = length (cellMap m').
Proof.
  unfold layout. intros [= _ _ Hc].
  apply (f_equal length) in Hc. by rewrite !length_fmap in Hc.
Qed.

(** What one [SDL_AppIterate] call does to the map: nothing, or one
    generation. *)
Lemma g_map_SDL_AppIterate (counter frequency : Z) (w : World) :
  g_map (SDL_AppIterate counter frequency w).1 = g_map w
  ∨ g_map (SDL_AppIterate counter frequency w).1
    = simulateConwayIteration (g_map w).
Proof.
  destruct (SDL_AppIterate_spec counter frequency w)
    as (_ & _ & _ & _ & _ & _ & Hm & _). cbv zeta in Hm.
  destruct (_ && _) in Hm; [by right|by left].
Qed.

Section LayoutPreserved.

Variable pir : SDL_FPoint → SDL_FRect → bool.

Lemma layout_setCellUnderPoint (m : MapSystem) (x y : Q) (a : CellSetAction) :
  layout (setCellUnderPoint pir m x y a) = layout m.
Proof.
  unfold setCellUnderPoint. destruct (getCellUnderPoint pir m x y); [|done].
  destruct a; apply layout_writeAlive.
Qed.

Lemma layout_SDL_AppEvent (w : World) (e : SDL_Event) :
  layout (g_map (SDL_AppEvent pir w e).1) = layout (g_map w).
Proof.
  destruct e as [|button x y|state x y|key|]; cbn [SDL_AppEvent]; try done.
  - destruct (button =? SDL_BUTTON_LEFT); [|done].
    apply (layout_setCellUnderPoint (g_map w) x y CELL_TOGGLE).
  - destruct (state =? SDL_BUTTON_LMASK); [|done]. cbn [fst g_map].
    unfold handleDragMotion. destruct (dragStartCell (g_map w)); [|done].
    apply layout_setCellUnderPoint.
  - destruct (key =? SDLK_P); [done|]. destruct (key =? SDLK_PERIOD); [done|].
    destruct (key =? SDLK_R); [|done]. apply layout_handleSimulationReset.
Qed.

Lemma layout_SDL_AppIterate (counter frequency : Z) (w : World) :
  layout (g_map (SDL_AppIterate counter frequency w).1) = layout (g_map w).
Proof.
  destruct (g_map_SDL_AppIterate counter frequency w) as [-> | ->]; [done|].
  apply layout_simulateConwayIteration.
Qed.

Lemma fps_SDL_AppEvent (w : World) (e : SDL_Event) :
  fps (g_sim (SDL_AppEvent pir w e).1) = fps (g_sim w).
Proof.
  destruct e as [|button x y|state x y|key|]; cbn [SDL_AppEvent]; try done.
  - by destruct (button =? SDL_BUTTON_LEFT).
  - by destruct (state =? SDL_BUTTON_LMASK).
  - destruct (key =? SDLK_P); [done|]. destruct (key =? SDLK_PERIOD); [done|].
    by destruct (key =? SDLK_R).
Qed.

(** X2.  Whatever callbacks run, in whatever order, the layout written by
    the construction loop stays as it is: the rectangles and their count,
    every cell's rectangle pointer, colour and position, the number of
    cells, and the generation rate.  Only liveness, the anchor, the two
    flags, the play state and the clock ever change. *)
Theorem runApp_keeps_layout (frequency : Z) (cbs : list Callback) (w : World) :
  let w' := runApp pir frequency cbs w in
  layout (g_map w') = layout (g_map w)
  ∧ length (cellMap (g_map w')) = length (cellMap (g_map w))
  ∧ fps (g_sim w') = fps (g_sim w).
Proof.
  cbv zeta.
  assert (layout (g_map (runApp pir frequency cbs w)) = layout (g_map w)
          ∧ fps (g_sim (runApp pir frequency cbs w)) = fps (g_sim w)) as [Hl Hf].
  { unfold runApp. revert w. induction cbs as [|cb cbs IH]; intros w; [done|].
    cbn [foldl]. destruct (IH (dispatch pir frequency w cb)) as [-> ->].
    destruct cb as [e|c]; cbn [dispatch].
    - by rewrite layout_SDL_AppEvent, fps_SDL_AppEvent.
    - rewrite layout_SDL_AppIterate.
      by destruct (SDL_AppIterate_spec c frequency w) as (_ & _ & -> & _). }
  split; [exact Hl|]. split; [by apply layout_length|exact Hf].
Qed.

End LayoutPreserved.

(** ** The geometry lookup on the constructed layout *)

Lemma firstCell_unique (test : nat → bool) (cells : list (Z * Z)) (i j : Z) :
  (i, j) ∈ cells → test (cellIndex i j) = true →
  (∀ i' j', (i', j') ∈ cells → test (cellIndex i' j') = true →
            cellIndex i' j' = cellIndex i j) →
  firstCell test cells = Some (cellIndex i j).
Proof.
  intros Hin Ht Huniq. induction cells as [|[i' j'] cells IH]; simpl.
  - by apply elem_of_nil in Hin.
  - destruct (test (cellIndex i' j')) eqn:Ht'.
    + f_equal. apply Huniq; [by left|done].
    + apply elem_of_cons in Hin as [[= -> ->]|Hin]; [congruence|].
      apply IH; [done|]. intros i2 j2 Hin2. apply Huniq. by right.
Qed.

Lemma pointInCell_layout (pir : SDL_FPoint → SDL_FRect → bool)
    (m m' : MapSystem) (point : SDL_FPoint) (k : nat) :
  layout m = layout m' → pointInCell pir m point k = pointInCell pir m' point k.
Proof.
  unfold layout. intros [= Hr _ Hc]. unfold pointInCell. rewrite Hr.
  apply (f_equal (.!! k)) in Hc. rewrite !list_lookup_fmap in Hc.
  destruct (cellMap m !! k) as [c|], (cellMap m' !! k) as [c'|];
    simpl in Hc; try done. injection Hc as -> _ _ _. done.
Qed.

Lemma pointInCell_initialMap (pir : SDL_FPoint → SDL_FRect → bool)
    (point : SDL_FPoint) (i j : Z) :
  inGrid (i, j) →
  pointInCell pir initialMap point (cellIndex i j) = pir point (cellRect i j).
Proof.
  intros Hij. destruct (initialMap_lookup i j Hij) as [Hc Hr].
  unfold pointInCell. rewrite Hc. cbn [frect builtCell]. by rewrite Hr.
Qed.

Lemma pointInRectInclusive_cellRect (x y : Q) (i j : Z) :
  pointInRectInclusive (mkFPoint x y) (cellRect i j) = true ↔ inCellRect x y i j.
Proof.
  destruct (cellRect_numbers i j) as (Hx & Hy & Hw & Hh).
  unfold pointInRectInclusive, inCellRect. cbn [point_x point_y].
  rewrite !andb_true_iff, !Qle_bool_iff, Hx, Hy, Hw, Hh.
  split; intros Hin; decompose [and] Hin; repeat split; lra.
Qed.

(** The rectangles are a gap apart, so a point lies in at most one. *)
Lemma inCellRect_unique (x y : Q) (i j i' j' : Z) :
  inCellRect x y i j → inCellRect x y i' j' → i = i' ∧ j = j'.
Proof.
  assert (∀ a b : Z, a < b → (inject_Z a + 1 <= inject_Z b)%Q) as Hstep.
  { intros a b Hab. change 1%Q with (inject_Z 1).
    rewrite <- inject_Z_plus, <- Zle_Qle. lia. }
  intros (Hx1 & Hx2 & Hy1 & Hy2) (Hx1' & Hx2' & Hy1' & Hy2'). split.
  - destruct (Z.lt_trichotomy i i') as [Hlt|[Heq|Hgt]]; [|done|].
    + apply Hstep in Hlt. lra.
    + apply Hstep in Hgt. lra.
  - destruct (Z.lt_trichotomy j j') as [Hlt|[Heq|Hgt]]; [|done|].
    + apply Hstep in Hlt. lra.
    + apply Hstep in Hgt. lra.
Qed.

Lemma pointInCell_constructed (m : MapSystem) (x y : Q) (i j : Z) :
  layout m = layout initialMap → inGrid (i, j) →
  pointInCell pointInRectInclusive m (mkFPoint x y) (cellIndex i j) = true
  ↔ inCellRect x y i j.
Proof.
  intros Hlay Hij. rewrite (pointInCell_layout _ _ _ _ _ Hlay).
  rewrite pointInCell_initialMap by exact Hij.
  apply pointInRectInclusive_cellRect.
Qed.

Lemma getCellUnderPoint_hit (m : MapSystem) (x y : Q) (i j : Z) :
  layout m = layout initialMap → inGrid (i, j) → inCellRect x y i j →
  getCellUnderPoint pointInRectInclusive m x y = Some (cellIndex i j).
Proof.
  intros Hlay Hij Hin.
  pose proof (λ i j, pointInCell_constructed m x y i j Hlay) as Htest.
  clear Hlay. unfold getCellUnderPoint. apply firstCell_unique.
  - by apply elem_of_scanOrder.
  - by apply Htest.
  - intros i' j' Hin' Ht'. apply elem_of_scanOrder in Hin'.
    apply Htest in Ht'; [|done].
    by destruct (inCellRect_unique x y i j i' j' Hin Ht') as [-> ->].
Qed.

(** X3.  On a map with the constructed layout, and with SDL's inclusive
    point-in-rectangle test, [getCellUnderPoint] returns cell [(i, j)]
    exactly for the points of the square [1/2 + 20 i .. 39/2 + 20 i] by
    [1/2 + 20 j .. 39/2 + 20 j], and returns null exactly for the points in
    no such square (the gaps between cells and everything outside the
    grid). *)
Theorem getCellUnderPoint_layout (m : MapSystem) (x y : Q) :
  layout m = layout initialMap →
  (∀ i j, 0 ≤ i < GRID_SIZE_X → 0 ≤ j < GRID_SIZE_Y →
     getCellUnderPoint pointInRectInclusive m x y = Some (cellIndex i j)
     ↔ inCellRect x y i j)
  ∧ (getCellUnderPoint pointInRectInclusive m x y = None
     ↔ ∀ i j, 0 ≤ i < GRID_SIZE_X → 0 ≤ j < GRID_SIZE_Y → ¬ inCellRect x y i j).
Proof.
  intros Hlay.
  pose proof (λ i j, pointInCell_constructed m x y i j Hlay) as Htest.
  pose proof (λ i j, getCellUnderPoint_hit m x y i j Hlay) as Hhit.
  clear Hlay. split.
  - intros i j Hi Hj. split; [|by apply Hhit].
    intros Hg. apply getCellUnderPoint_Some in Hg as (Ht & _ & _).
    by apply Htest.
  - split.
    + intros Hnone i j Hi Hj Hin. by rewrite (Hhit i j) in Hnone.
    + intros Hout.
      destruct (getCellUnderPoint pointInRectInclusive m x y) as [p|] eqn:Hg;
        [|done].
      apply getCellUnderPoint_Some in Hg as (Ht & _ & i & j & Hij & ->).
      apply Htest in Ht; [|done]. destruct Hij as [Hi Hj].
      by destruct (Hout i j Hi Hj).
Qed.

(** ** The drag anchor *)

Lemma validPtr_length (m m' : MapSystem) (p : CellPtr) :
  length (cellMap m) = length (cellMap m') → validPtr m p → validPtr m' p.
Proof.
  intros Hlen. destruct p as [k|]; [|done]. intros [Hk Hgrid]. split; [|done].
  apply lookup_lt_is_Some. rewrite <- Hlen. by apply lookup_lt_is_Some.
Qed.

Lemma dragStartCell_SDL_AppIterate (counter frequency : Z) (w : World) :
  dragStartCell (g_map (SDL_AppIterate counter frequency w).1)
  = dragStartCell (g_map w).
Proof.
  destruct (g_map_SDL_AppIterate counter frequency w) as [-> | ->]; [done|].
  apply dragStartCell_simulateConwayIteration.
Qed.

Section Anchor.

Variable pir : SDL_FPoint → SDL_FRect → bool.

Lemma dragStartCell_setCellUnderPoint (m : MapSystem) (x y : Q) (a : CellSetAction) :
  dragStartCell (setCellUnderPoint pir m x y a) = dragStartCell m.
Proof.
  unfold setCellUnderPoint. destruct (getCellUnderPoint pir m x y); [|done].
  by destruct a.
Qed.

Lemma dragStartCell_handleDragMotion (m : MapSystem) (x y : Q) :
  dragStartCell (handleDragMotion pir m x y) = dragStartCell m.
Proof.
  unfold handleDragMotion. destruct (dragStartCell m) eqn:Ha; [|done].
  by rewrite dragStartCell_setCellUnderPoint.
Qed.

(** X4.  Only a left-button pointer-down event writes the drag anchor.
    Every other event (button release is not even handled, other buttons,
    motion, keys, reset) and every [SDL_AppIterate] call, generation advance
    included, leaves [dragStartCell] pointing where it pointed: the anchor
    of the last left click stays in force. *)
Theorem anchor_written_by_left_down_only (w : World) (e : SDL_Event)
    (counter frequency : Z) :
  (∀ x y, e ≠ SDL_EVENT_MOUSE_BUTTON_DOWN SDL_BUTTON_LEFT x y) →
  dragStartCell (g_map (SDL_AppEvent pir w e).1) = dragStartCell (g_map w)
  ∧ dragStartCell (g_map (SDL_AppIterate counter frequency w).1)
    = dragStartCell (g_map w).
Proof.
  intros Hnot. split; [|apply dragStartCell_SDL_AppIterate].
  destruct e as [|button x y|state x y|key|]; cbn [SDL_AppEvent]; try done.
  - destruct (Z.eqb_spec button SDL_BUTTON_LEFT) as [->|]; [|done].
    by destruct (Hnot x y).
  - destruct (state =? SDL_BUTTON_LMASK); [|done].
    apply dragStartCell_handleDragMotion.
  - destruct (key =? SDLK_P); [done|]. destruct (key =? SDLK_PERIOD); [done|].
    destruct (key =? SDLK_R); [|done]. apply dragStartCell_handleSimulationReset.
Qed.

Lemma validPtr_SDL_AppEvent (w : World) (e : SDL_Event) :
  validPtr (g_map w) (dragStartCell (g_map w)) →
  validPtr (g_map (SDL_AppEvent pir w e).1)
           (dragStartCell (g_map (SDL_AppEvent pir w e).1)).
Proof.
  intros Hv.
  assert (length (cellMap (g_map w))
          = length (cellMap (g_map (SDL_AppEvent pir w e).1))) as Hlen
    by (symmetry; apply layout_length, layout_SDL_AppEvent).
  destruct e as [|button x y|state x y|key|]; try done.
  - cbn [SDL_AppEvent] in *. destruct (button =? SDL_BUTTON_LEFT); [|done].
    cbn [fst g_map]. unfold handleDragStart. cbn [set_dragStartCell dragStartCell].
    set (m1 := setCellUnderPoint pir (g_map w) x y CELL_TOGGLE).
    destruct (getCellUnderPoint pir m1 x y) as [p|] eqn:Hhit; [|done].
    apply getCellUnderPoint_Some in Hhit as (_ & Hsome & Hgrid). by split.
  - apply (validPtr_length _ _ _ Hlen). cbn [SDL_AppEvent].
    destruct (state =? SDL_BUTTON_LMASK); [|done]. cbn [fst g_map].
    by rewrite dragStartCell_handleDragMotion.
  - apply (validPtr_length _ _ _ Hlen). cbn [SDL_AppEvent].
    destruct (key =? SDLK_P); [done|]. destruct (key =? SDLK_PERIOD); [done|].
    destruct (key =? SDLK_R); [|done]. cbn [fst with_map g_map].
    by rewrite dragStartCell_handleSimulationReset.
Qed.

(** X5.  In every state the program can reach after [SDL_AppInit], the
    drag anchor is null or points at a cell of the grid that is present in
    the array, so [handleDragMotion] never reads through a dangling
    pointer. *)
Theorem anchor_always_valid (frequency counter : Z) (cbs : list Callback) :
  let w := runApp pir frequency cbs (SDL_AppInit counter) in
  validPtr (g_map w) (dragStartCell (g_map w)).
Proof.
  cbv zeta.
  assert (validPtr (g_map (SDL_AppInit counter))
                   (dragStartCell (g_map (SDL_AppInit counter)))) as Hinit.
  { cbn [SDL_AppInit g_map]. unfold initialMap.
    by destruct (foldl_initCell_frame scanOrder
                   (mkMap (cellDrawList zeroMap) (GRID_SIZE_X * GRID_SIZE_Y)
                          (cellMap zeroMap) (dragStartCell zeroMap)))
      as (_ & -> & _). }
  revert Hinit. generalize (SDL_AppInit counter). unfold runApp.
  induction cbs as [|cb cbs IH]; intros w Hv; [done|].
  cbn [foldl]. apply IH. destruct cb as [e|c]; cbn [dispatch].
  - by apply validPtr_SDL_AppEvent.
  - rewrite dragStartCell_SDL_AppIterate.
    apply (validPtr_length (g_map w)); [|done].
    symmetry. apply layout_length, layout_SDL_AppIterate.
Qed.

End Anchor.

(** ** Rule engine: counting and staging *)

(** X6.  [getNumLiveNeighbors] returns the number of live cells among the
    first eight entries of the cell's neighbour list, a null entry counting
    as not alive; the result is between 0 and 8. *)
Theorem getNumLiveNeighbors_counts (m : MapSystem) (p : nat) :
  getNumLiveNeighbors m p
  = Z.of_nat (length (filter (λ q, ptrAlive m q = true)
                             (take NUM_CELL_NEIGHBORS (neighborsOf m p))))
  ∧ 0 ≤ getNumLiveNeighbors m p ≤ 8.
Proof.
  pose proof (getNumLiveNeighbors_filter m p) as Hcount.
  split; [exact Hcount|]. rewrite Hcount.
  pose proof (length_filter (λ q, ptrAlive m q = true)
                (take NUM_CELL_NEIGHBORS (neighborsOf m p))) as Hle.
  rewrite length_take in Hle. unfold NUM_CELL_NEIGHBORS in *. lia.
Qed.

(** X7.  On a map with the constructed topology the count for cell
    [(i, j)] is the number of live cells among its eight neighbours on the
    torus. *)
Theorem getNumLiveNeighbors_torus (m : MapSystem) (i j : Z) :
  topology m = topology initialMap →
  0 ≤ i < GRID_SIZE_X → 0 ≤ j < GRID_SIZE_Y →
  getNumLiveNeighbors m (cellIndex i j)
  = Z.of_nat (length (filter (λ q, ptrAlive m q = true) (toroidalMoore i j))).
Proof.
  intros Ht Hi Hj. rewrite getNumLiveNeighbors_filter.
  rewrite (neighborsOf_topology _ _ _ Ht). clear Ht.
  rewrite neighborsOf_initialMap, wiredNeighbors_toroidal by (by split).
  reflexivity.
Qed.

Lemma NoDup_scanOrder : NoDup scanOrder.
Proof.
  unfold scanOrder. apply NoDup_bind; [| |apply NoDup_seqZ].
  - intros j1 j2 [i j] _ _ Hin1 Hin2.
    apply list_elem_of_bind in Hin1 as (i1 & Hin1 & _).
    apply list_elem_of_bind in Hin2 as (i2 & Hin2 & _).
    apply list_elem_of_singleton in Hin1, Hin2. congruence.
  - intros j _. apply NoDup_bind; [| |apply NoDup_seqZ].
    + intros i1 i2 [i j'] _ _ Hin1 Hin2.
      apply list_elem_of_singleton in Hin1, Hin2. congruence.
    + intros i _. apply NoDup_singleton.
Qed.

Lemma NoDup_scanCells : NoDup (cellOf <$> scanOrder).
Proof.
  apply NoDup_fmap_2_strong; [|apply NoDup_scanOrder].
  intros [i j] [i' j'] Hin Hin' Heq. apply elem_of_scanOrder in Hin, Hin'.
  by destruct (cellIndex_inj i j i' j' Hin Hin' Heq) as [-> ->].
Qed.

Lemma length_scanOrder : Z.of_nat (length scanOrder) = GRID_SIZE_X * GRID_SIZE_Y.
Proof. vm_compute. reflexivity. Qed.

Lemma length_filter_disjoint {A : Type} (P Q : A → Prop)
    `{∀ x, Decision (P x)} `{∀ x, Decision (Q x)} (l : list A) :
  (∀ x, P x → ¬ Q x) →
  (length (filter P l) + length (filter Q l) ≤ length l)%nat.
Proof.
  intros Hdisj. induction l as [|x l IH]; [done|].
  rewrite !filter_cons. destruct (decide (P x)) as [HP|], (decide (Q x)) as [HQ|];
    cbn [length]; try lia. by destruct (Hdisj x HP).
Qed.

(** X8.  The test loop stages every cell at most once and never in both
    arrays, so the two staging arrays together hold at most
    [GRID_SIZE_X * GRID_SIZE_Y] entries: no write runs past the end of
    [cellsToBirth] or [cellsToKill]. *)
Theorem staging_within_capacity (m : MapSystem) :
  let st := foldl (testCell m) (mkStaged [] []) scanOrder in
  Z.of_nat (length (cellsToBirth st)) + Z.of_nat (length (cellsToKill st))
  ≤ GRID_SIZE_X * GRID_SIZE_Y
  ∧ NoDup (cellsToBirth st) ∧ NoDup (cellsToKill st)
  ∧ ∀ p, p ∈ cellsToBirth st → p ∉ cellsToKill st.
Proof.
  cbv zeta. rewrite foldl_testCell. cbn [cellsToBirth cellsToKill].
  rewrite !app_nil_l. split; [|split; [|split]].
  - rewrite <- length_scanOrder, <- (length_fmap cellOf scanOrder).
    pose proof (length_filter_disjoint
                  (λ p, stagedForBirth m p = true) (λ p, stagedForDeath m p = true)
                  (cellOf <$> scanOrder)) as Hle.
    cut (length (filter (λ p, stagedForBirth m p = true) (cellOf <$> scanOrder))
         + length (filter (λ p, stagedForDeath m p = true) (cellOf <$> scanOrder))
         ≤ length (cellOf <$> scanOrder))%nat; [lia|].
    apply Hle. intros p Hb Hd. apply staged_disjoint in Hd. congruence.
  - apply NoDup_filter, NoDup_scanCells.
  - apply NoDup_filter, NoDup_scanCells.
  - intros p [Hb _]%list_elem_of_filter [Hd _]%list_elem_of_filter.
    apply staged_disjoint in Hd. congruence.
Qed.

Lemma filter_none {A : Type} (P : A → Prop) `{∀ x, Decision (P x)} (l : list A) :
  (∀ x, ¬ P x) → filter P l = [].
Proof.
  intros Hno. induction l as [|x l IH]; [done|].
  by rewrite filter_cons_False.
Qed.

(** X9.  A grid without a live cell is a fixed point of the generation
    advance: [simulateConwayIteration] stages nothing and returns the map
    unchanged. *)
Theorem dead_grid_is_fixed (m : MapSystem) :
  (∀ q, ptrAlive m q = false) → simulateConwayIteration m = m.
Proof.
  intros Hdead. unfold simulateConwayIteration. rewrite foldl_testCell.
  cbn [cellsToBirth cellsToKill]. rewrite !app_nil_l, !filter_none; [done| |].
  - intros p. unfold stagedForDeath. rewrite Hdead. discriminate.
  - intros p. unfold stagedForBirth.
    rewrite (getNumLiveNeighbors_dead m p Hdead), Hdead. discriminate.
Qed.

(** ** Cell edits compose *)

Lemma MapSystem_eq (m m' : MapSystem) :
  cellDrawList m = cellDrawList m' → cellCount m = cellCount m' →
  cellMap m = cellMap m' → dragStartCell m = dragStartCell m' → m = m'.
Proof. destruct m, m'; simpl; congruence. Qed.

Lemma writeAlive_writeAlive (u v : bool) (m : MapSystem) (p : nat) :
  writeAlive v (writeAlive u m p) p = writeAlive v m p.
Proof.
  apply MapSystem_eq; try done. unfold writeAlive.
  cbn [set_cellMap cellMap]. apply list_eq. intros k.
  rewrite !list_lookup_alter. destruct (decide (p = k)) as [->|]; [|done].
  rewrite decide_True by done. by destruct (cellMap m !! k).
Qed.

Lemma writeAlive_same (m : MapSystem) (p : nat) :
  writeAlive (ptrAlive m (Some p)) m p = m.
Proof.
  apply MapSystem_eq; try done. unfold writeAlive.
  cbn [set_cellMap cellMap]. apply list_eq. intros k.
  rewrite list_lookup_alter, ptrAlive_Some.
  destruct (decide (p = k)) as [->|]; [|done].
  by destruct (cellMap m !! k) as [[]|].
Qed.

Section Edits.

Variable pir : SDL_FPoint → SDL_FRect → bool.

Lemma getCellUnderPoint_setCellUnderPoint (m : MapSystem) (x y x' y' : Q)
    (a : CellSetAction) :
  getCellUnderPoint pir (setCellUnderPoint pir m x y a) x' y'
  = getCellUnderPoint pir m x' y'.
Proof.
  unfold setCellUnderPoint. destruct (getCellUnderPoint pir m x y); [|done].
  destruct a; apply getCellUnderPoint_writeAlive.
Qed.

(** X10.  Toggling the cell under a point twice restores the map: two
    [CELL_TOGGLE] edits at the same position cancel. *)
Theorem toggle_twice_restores (m : MapSystem) (x y : Q) :
  setCellUnderPoint pir (setCellUnderPoint pir m x y CELL_TOGGLE) x y CELL_TOGGLE
  = m.
Proof.
  unfold setCellUnderPoint at 1. rewrite getCellUnderPoint_setCellUnderPoint.
  unfold setCellUnderPoint.
  destruct (getCellUnderPoint pir m x y) as [p|] eqn:Hhit; [|done].
  destruct (getCellUnderPoint_Some pir _ _ _ _ Hhit) as (_ & [c Hc] & _).
  rewrite ptrAlive_writeAlive, decide_True, Hc by done.
  rewrite writeAlive_writeAlive, negb_involutive. apply writeAlive_same.
Qed.

(** X11.  A [CELL_SET_ALIVE] or [CELL_SET_DEAD] edit overwrites whatever
    edit was made at the same position before it; in particular repeating
    it changes nothing (painting is idempotent). *)
Theorem set_edit_overwrites (m : MapSystem) (x y : Q) (a b : CellSetAction) :
  b ≠ CELL_TOGGLE →
  setCellUnderPoint pir (setCellUnderPoint pir m x y a) x y b
  = setCellUnderPoint pir m x y b.
Proof.
  intros Hb. unfold setCellUnderPoint at 1.
  rewrite getCellUnderPoint_setCellUnderPoint. unfold setCellUnderPoint.
  destruct (getCellUnderPoint pir m x y) as [p|]; [|done].
  destruct b; [| |done]; destruct a; apply writeAlive_writeAlive.
Qed.

(** X12.  A motion event repeated at the same position changes nothing
    further: a dragged-over cell is written with the same value each
    time. *)
Theorem drag_motion_idempotent (m : MapSystem) (x y : Q) :
  handleDragMotion pir (handleDragMotion pir m x y) x y
  = handleDragMotion pir m x y.
Proof.
  change (dragAlong pir m [(x, y); (x, y)] = dragAlong pir m [(x, y)]).
  destruct (dragStartCell m) as [a|] eqn:Ha.
  - rewrite !(dragAlong_writes pir m _ a Ha), !dragHits_cons.
    destruct (getCellUnderPoint pir m x y) as [p|]; [|done].
    cbn [foldl dragHits omap list_omap]. apply writeAlive_writeAlive.
  - unfold dragAlong, handleDragMotion. cbn [foldl fst snd]. by rewrite !Ha.
Qed.

End Edits.

(** ** Clicking on the constructed layout *)

(** X13.  On a map with the constructed layout, a left click at a point of
    the square of cell [(i, j)] flips the liveness of exactly that cell,
    leaves every other cell as it was, makes that cell the drag anchor and
    pauses the simulation. *)
Theorem click_in_square (w : World) (x y : Q) (i j : Z) :
  layout (g_map w) = layout initialMap →
  0 ≤ i < GRID_SIZE_X → 0 ≤ j < GRID_SIZE_Y → inCellRect x y i j →
  let w' := (SDL_AppEvent pointInRectInclusive w
               (SDL_EVENT_MOUSE_BUTTON_DOWN SDL_BUTTON_LEFT x y)).1 in
  ptrAlive (g_map w') (Some (cellIndex i j))
  = negb (ptrAlive (g_map w) (Some (cellIndex i j)))
  ∧ (∀ q, q ≠ cellIndex i j → cellMap (g_map w') !! q = cellMap (g_map w) !! q)
  ∧ dragStartCell (g_map w') = Some (cellIndex i j)
  ∧ isPlaying (g_sim w') = false.
Proof.
  intros Hlay Hi Hj Hin. cbv zeta.
  pose proof (getCellUnderPoint_hit (g_map w) x y i j Hlay (conj Hi Hj) Hin)
    as Hhit. clear Hlay.
  destruct (getCellUnderPoint_Some _ _ _ _ _ Hhit) as (_ & [c Hc] & _).
  cbn [SDL_AppEvent]. rewrite Z.eqb_refl. cbn [fst g_map g_sim].
  unfold handleDragStart. rewrite getCellUnderPoint_setCellUnderPoint, Hhit.
  unfold setCellUnderPoint. rewrite Hhit.
  cbn [set_dragStartCell dragStartCell cellMap].
  split; [|split; [|split; [reflexivity|reflexivity]]].
  - rewrite ptrAlive_Some. cbn [set_dragStartCell cellMap].
    rewrite <- ptrAlive_Some, ptrAlive_writeAlive, decide_True by reflexivity.
    by rewrite Hc.
  - intros q Hq. rewrite cellMap_writeAlive. by rewrite decide_False.
Qed.

(** ** Clock: conservation, backlog, and the bumped timestamp *)

Lemma tick_step_acc (counter frequency : Z) (w : World) :
  let w' := tickSimulationTimer counter frequency w in
  (accumulatedSeconds w'
   == accumulatedSeconds w + elapsedSeconds counter frequency w
      - (if isAFixedUpdate (g_sim w') then 1 else 0) * (1 / fps (g_sim w)))%Q.
Proof.
  cbv zeta.
  destruct (tickSimulationTimer_cases counter frequency w)
    as (_ & _ & _ & _ & _ & [(-> & _ & ->)|(-> & _ & ->)]); ring.
Qed.

Lemma elapsedSeconds_nonneg (counter frequency : Z) (w : World) :
  0 ≤ frequency → (0 <= elapsedSeconds counter frequency w)%Q.
Proof.
  intros Hf. unfold elapsedSeconds, Qdiv. apply Qmult_le_0_compat.
  - change 0%Q with (inject_Z 0). rewrite <- Zle_Qle. unfold wrap64.
    apply Z.mod_pos_bound. lia.
  - apply Qinv_le_0_compat. change 0%Q with (inject_Z 0). by rewrite <- Zle_Qle.
Qed.

Lemma dueCount_cons (w : World) (trace : list World) :
  dueCount (w :: trace)
  = ((if isAFixedUpdate (g_sim w) then 1 else 0) + dueCount trace)%nat.
Proof.
  unfold dueCount. rewrite filter_cons.
  destruct (isAFixedUpdate (g_sim w)); [by rewrite decide_True|].
  by rewrite decide_False.
Qed.

Lemma last_cons_default {A : Type} (x d : A) (l : list A) :
  default d (last (x :: l)) = default x (last l).
Proof.
  revert x d. induction l as [|y l IH]; intros x d; [done|].
  change (last (x :: y :: l)) with (last (y :: l)). by rewrite !IH.
Qed.

(** X14.  Along any run of ticks whose counter readings never go
    backwards, no time is lost or invented: the accumulator at the end is
    the accumulator at the start, plus the time between the first and the
    last reading, minus one cycle period for every tick that was due. *)
Theorem ticks_conserve_time (frequency : Z) (counters : list Z) (w : World) :
  0 ≤ timestamp (g_sim w) →
  nonDecreasing (timestamp (g_sim w)) counters →
  Forall (λ c, c < 2 ^ 64) counters →
  let trace := tickTrace frequency counters w in
  let final := default w (last trace) in
  timestamp (g_sim final) = default (timestamp (g_sim w)) (last counters)
  ∧ (accumulatedSeconds final
     == accumulatedSeconds w
        + inject_Z (timestamp (g_sim final) - timestamp (g_sim w))
          / inject_Z frequency
        - inject_Z (Z.of_nat (dueCount trace)) * (1 / fps (g_sim w)))%Q.
Proof.
  cbv zeta. revert w. induction counters as [|c rest IH]; intros w H0 Hmono Hmax.
  - cbn [tickTrace last default]. split; [done|].
    rewrite Z.sub_diag. unfold dueCount. simpl. unfold Qdiv. ring.
  - destruct Hmono as [Hle Hmono]. apply Forall_cons in Hmax as [Hc Hmax].
    cbn [tickTrace]. set (w1 := tickSimulationTimer c frequency w).
    destruct (tickSimulationTimer_cases c frequency w)
      as (_ & Ht1 & Hf1 & _ & _ & _). fold w1 in Ht1, Hf1.
    pose proof (tick_step_acc c frequency w) as Hstep. fold w1 in Hstep.
    rewrite elapsedSeconds_monotone in Hstep by lia.
    destruct (IH w1) as [Hlast Hacc];
      [rewrite Ht1; lia|by rewrite Ht1|done|].
    rewrite Hf1, Ht1 in Hacc. rewrite Ht1 in Hlast.
    rewrite !last_cons_default.
    split; [exact Hlast|]. rewrite Hacc, Hstep, dueCount_cons.
    set (tf := timestamp (g_sim (default w1 (last (tickTrace frequency rest w1))))).
    set (t0 := timestamp (g_sim w)).
    replace (tf - t0) with ((c - t0) + (tf - c)) by lia.
    rewrite Nat2Z.inj_add, !inject_Z_plus. unfold Qdiv.
    destruct (isAFixedUpdate (g_sim w1)); simpl; ring.
Qed.


Lemma accumulatedSeconds_SDL_AppEvent (pir : SDL_FPoint → SDL_FRect → bool)
    (w : World) (e : SDL_Event) :
  accumulatedSeconds (SDL_AppEvent pir w e).1 = accumulatedSeconds w.
Proof.
  destruct e as [|button x y|state x y|key|]; cbn [SDL_AppEvent]; try done.
  - by destruct (button =? SDL_BUTTON_LEFT).
  - by destruct (state =? SDL_BUTTON_LMASK).
  - destruct (key =? SDLK_P); [done|]. destruct (key =? SDLK_PERIOD); [done|].
    by destruct (key =? SDLK_R).
Qed.

(** X16.  The accumulator never becomes negative: from a state with a
    non-negative accumulator, no sequence of events and iterations, at any
    positive counter frequency, makes it negative. *)
Theorem accumulator_never_negative (pir : SDL_FPoint → SDL_FRect → bool)
    (frequency : Z) (cbs : list Callback) (w : World) :
  0 < frequency → (0 <= accumulatedSeconds w)%Q →
  (0 <= accumulatedSeconds (runApp pir frequency cbs w))%Q.
Proof.
  intros Hf. unfold runApp. revert w.
  induction cbs as [|cb cbs IH]; intros w Hacc; [done|].
  cbn [foldl]. apply IH. destruct cb as [e|c]; cbn [dispatch].
  - by rewrite accumulatedSeconds_SDL_AppEvent.
  - destruct (SDL_AppIterate_spec c frequency w) as (_ & _ & _ & -> & _).
    pose proof (elapsedSeconds_nonneg c frequency w (Z.lt_le_incl _ _ Hf)) as He.
    destruct (tickSimulationTimer_cases c frequency w)
      as (_ & _ & _ & _ & _ & [(_ & Hlt & ->)|(_ & _ & ->)]); lra.
Qed.

(** X17.  While playing, [SDL_AppIterate] leaves the stored timestamp one
    count ahead of the reading it took.  The next tick therefore measures
    one count less than what elapsed, and if the counter has not moved the
    unsigned difference wraps: the elapsed time added is
    [(2^64 - 1) / frequency]. *)
Theorem playing_bumps_timestamp (counter frequency : Z) (w : World) :
  isPlaying (g_sim w) = true → 0 ≤ counter → counter + 1 < 2 ^ 64 →
  let w1 := (SDL_AppIterate counter frequency w).1 in
  timestamp (g_sim w1) = counter + 1
  ∧ elapsedSeconds counter frequency w1
    = (inject_Z (2 ^ 64 - 1) / inject_Z frequency)%Q
  ∧ ∀ next, counter < next < 2 ^ 64 →
      elapsedSeconds next frequency w1
      = (inject_Z (next - counter - 1) / inject_Z frequency)%Q.
Proof.
  intros Hp H0 Hmax. cbv zeta.
  destruct (SDL_AppIterate_spec counter frequency w)
    as (_ & _ & _ & _ & Ht & _). cbv zeta in Ht. rewrite Hp in Ht.
  assert (timestamp (g_sim (SDL_AppIterate counter frequency w).1) = counter + 1)
    as Hts by (rewrite Ht; unfold wrap64; rewrite Z.mod_small; lia).
  split; [exact Hts|]. unfold elapsedSeconds. rewrite Hts. split.
  - do 2 f_equal. unfold wrap64.
    replace (counter - (counter + 1)) with (-1 * 2 ^ 64 + (2 ^ 64 - 1)) by lia.
    rewrite Z.add_comm, Z.mod_add, Z.mod_small; lia.
  - intros next Hnext. do 2 f_equal. unfold wrap64.
    rewrite Z.mod_small; lia.
Qed.

(** ** Rendering *)

Lemma WITH_RENDER_COLOR_runs (n : nat) (c : Color)
    (body : SDL_Renderer → SDL_Renderer) (rd : SDL_Renderer) :
  WITH_RENDER_COLOR_loop (S (S n)) c body rd
  = Some (mkMacro (toUint8 (drawColor rd)) 1
            (mkRenderer (toUint8 c)
               (renderCalls (body (SDL_SetRenderDrawColor c rd))))).
Proof. reflexivity. Qed.

Lemma WITH_RENDER_COLOR_closed (c : Color)
    (body : SDL_Renderer → SDL_Renderer) (rd : SDL_Renderer) :
  WITH_RENDER_COLOR c body rd
  = mkRenderer (toUint8 c) (renderCalls (body (SDL_SetRenderDrawColor c rd))).
Proof. reflexivity. Qed.

(** X18.  The [WITH_RENDER_COLOR] loop runs its body exactly once, with
    the macro's colour set, and stops at the second evaluation of its
    condition, whatever fuel beyond two rounds it is given.  That second
    evaluation sets the macro's colour again after the increment has put
    the saved colour back, so on exit the draw colour is the macro's colour
    and not the colour that was in effect before. *)
Theorem WITH_RENDER_COLOR_leaves_its_colour (n : nat) (c : Color)
    (body : SDL_Renderer → SDL_Renderer) (rd : SDL_Renderer) :
  ∃ s, WITH_RENDER_COLOR_loop (S (S n)) c body rd = Some s
       ∧ renderer s = WITH_RENDER_COLOR c body rd
       ∧ flag s = 1
       ∧ savedColor s = toUint8 (drawColor rd)
       ∧ renderCalls (renderer s)
         = renderCalls (body (SDL_SetRenderDrawColor c rd))
       ∧ drawColor (renderer s) = toUint8 c.
Proof.
  eexists. split; [apply WITH_RENDER_COLOR_runs|].
  rewrite WITH_RENDER_COLOR_closed. done.
Qed.

Lemma drawCell_liveFill (m : MapSystem) (rd : SDL_Renderer) (ij : Z * Z) :
  drawCell m rd ij
  = match liveFill m ij with
    | Some (CallRenderFillRect c r) =>
        mkRenderer c (renderCalls rd ++ [CallRenderFillRect c r])
    | _ => rd
    end.
Proof.
  unfold drawCell, liveFill. destruct (cellMap m !! cellOf ij) as [cell|]; [|done].
  destruct (isAlive cell); [|done]. by rewrite WITH_RENDER_COLOR_closed.
Qed.

Lemma liveFill_is_fill (m : MapSystem) (ij : Z * Z) (call : RenderCall) :
  liveFill m ij = Some call → ∃ c r, call = CallRenderFillRect c r.
Proof.
  unfold liveFill. destruct (cellMap m !! cellOf ij) as [cell|]; [|done].
  destruct (isAlive cell); [|done]. intros [= <-]. eauto.
Qed.

(** The colour a list of calls leaves behind, starting from [c]. *)
Lemma foldl_drawCell (m : MapSystem) (l : list (Z * Z)) (rd : SDL_Renderer) :
  renderCalls (foldl (drawCell m) rd l)
  = renderCalls rd ++ omap (liveFill m) l
  ∧ drawColor (foldl (drawCell m) rd l)
    = match last (omap (liveFill m) l) with
      | Some (CallRenderFillRect c _) => c
      | _ => drawColor rd
      end.
Proof.
  revert rd. induction l as [|ij l IH]; intros rd.
  - cbn [foldl]. csimpl. by rewrite app_nil_r.
  - cbn [foldl]. destruct (IH (drawCell m rd ij)) as [-> ->]. clear IH.
    rewrite drawCell_liveFill. csimpl.
    destruct (liveFill m ij) as [call|] eqn:Hfill; [|done].
    destruct (liveFill_is_fill _ _ _ Hfill) as (c & r & ->).
    cbn [renderCalls drawColor]. rewrite <- app_assoc. split; [done|].
    rewrite last_cons.
    destruct (last (omap (liveFill m) l)) as [call|] eqn:Hlast; [|done].
    apply last_Some_elem_of, list_elem_of_omap in Hlast as (ij' & _ & Hfill').
    by destruct (liveFill_is_fill _ _ _ Hfill') as (c' & r' & ->).
Qed.

(** X19.  One [SDL_AppIterate] call with its drawing makes these calls on
    the renderer, in this order: a clear in (33, 33, 33, 255), one
    [SDL_RenderFillRects] of the first [cellCount] rectangles in the dead
    colour, one [SDL_RenderFillRect] per live cell in scan order, each in
    the cell's own colour and on the cell's own rectangle, and a present.
    Dead cells get no call of their own, and the state it returns is that
    of the iteration without drawing. *)
Theorem SDL_AppIterate_draws (counter frequency : Z) (w : World)
    (rd : SDL_Renderer) :
  let r := SDL_AppIterate_drawn counter frequency w rd in
  let m := g_map r.1 in
  r.1 = (SDL_AppIterate counter frequency w).1
  ∧ renderCalls r.2
    = renderCalls rd
      ++ [CallRenderClear (mkColor 33 33 33 255);
          CallRenderFillRects deadCellColor
            (take (Z.to_nat (cellCount m)) (cellDrawList m))]
      ++ omap (liveFill m) scanOrder
      ++ [CallRenderPresent]
  ∧ drawColor r.2
    = match last (omap (liveFill m) scanOrder) with
      | Some (CallRenderFillRect c _) => c
      | _ => deadCellColor
      end.
Proof.
  cbv zeta. unfold SDL_AppIterate_drawn. cbn [fst snd].
  generalize (g_map (SDL_AppIterate counter frequency w).1). intros m.
  split; [reflexivity|]. unfold drawActiveCells.
  destruct (foldl_drawCell m scanOrder
              (drawMap m (SDL_RenderClear
                 (SDL_SetRenderDrawColor (mkColor 33 33 33 SDL_ALPHA_OPAQUE) rd))))
    as [Hcalls Hcolor].
  revert Hcalls Hcolor. generalize (omap (liveFill m) scanOrder).
  generalize (foldl (drawCell m)
                (drawMap m (SDL_RenderClear
                   (SDL_SetRenderDrawColor (mkColor 33 33 33 SDL_ALPHA_OPAQUE) rd)))
                scanOrder).
  intros rd' fills Hcalls Hcolor.
  unfold SDL_RenderPresent. cbn [renderCalls drawColor].
  rewrite Hcalls, Hcolor. clear Hcalls Hcolor.
  unfold drawMap. rewrite WITH_RENDER_COLOR_closed.
  cbn [renderCalls drawColor SDL_RenderFillRects SDL_SetRenderDrawColor
       SDL_RenderClear].
  change (toUint8 deadCellColor) with deadCellColor.
  change (toUint8 (mkColor 33 33 33 SDL_ALPHA_OPAQUE)) with (mkColor 33 33 33 255).
  split; [|reflexivity]. rewrite <- !app_assoc. reflexivity.
Qed.

Lemma layout_fields (m m' : MapSystem) :
  layout m = layout m' →
  cellDrawList m = cellDrawList m' ∧ cellCount m = cellCount m'
  ∧ ∀ k c', cellMap m' !! k = Some c' →
      ∃ c, cellMap m !! k = Some c ∧ frect c = frect c' ∧ color c = color c'.
Proof.
  unfold layout. intros [= Hr Hn Hc]. split; [exact Hr|]. split; [exact Hn|].
  intros k c' Hk. apply (f_equal (.!! k)) in Hc.
  rewrite !list_lookup_fmap, Hk in Hc.
  destruct (cellMap m !! k) as [c|]; [|discriminate Hc].
  injection Hc as Hf Hcol _ _. by exists c.
Qed.

Lemma layout_cell (m : MapSystem) (i j : Z) :
  layout m = layout initialMap → inGrid (i, j) →
  ∃ c, cellMap m !! cellIndex i j = Some c
       ∧ color c = aliveCellColor
       ∧ rectOf m c = Some (cellRect i j).
Proof.
  intros Hlay Hij. destruct (initialMap_lookup i j Hij) as [Hc Hr].
  apply layout_fields in Hlay as (Hrects & _ & Hcells).
  destruct (Hcells _ _ Hc) as (c & Hk & Hf & Hcol). exists c.
  split; [exact Hk|]. split; [exact Hcol|].
  unfold rectOf. rewrite Hf, Hrects. exact Hr.
Qed.

Lemma cellRect_inj (i j i' j' : Z) :
  cellRect i j = cellRect i' j' → i = i' ∧ j = j'.
Proof.
  intros Heq.
  destruct (cellRect_numbers i j) as (Hx & Hy & _).
  destruct (cellRect_numbers i' j') as (Hx' & Hy' & _).
  rewrite Heq in Hx, Hy. rewrite Hx' in Hx. rewrite Hy' in Hy.
  split; apply inject_Z_injective; lra.
Qed.

Lemma initialMap_rects :
  cellCount initialMap = GRID_SIZE_X * GRID_SIZE_Y
  ∧ length (cellDrawList initialMap) = Z.to_nat (GRID_SIZE_X * GRID_SIZE_Y).
Proof.
  unfold initialMap.
  destruct (foldl_initCell_frame scanOrder
              (mkMap (cellDrawList zeroMap) (GRID_SIZE_X * GRID_SIZE_Y)
                     (cellMap zeroMap) (dragStartCell zeroMap)))
    as (-> & _ & -> & _).
  split; [reflexivity|]. unfold zeroMap. cbn [cellDrawList].
  apply length_replicate.
Qed.

Lemma cellRect_drawn (m : MapSystem) (i j : Z) :
  layout m = layout initialMap → inGrid (i, j) →
  cellRect i j ∈ take (Z.to_nat (cellCount m)) (cellDrawList m).
Proof.
  intros Hlay Hij. apply layout_fields in Hlay as (-> & -> & _).
  destruct initialMap_rects as [-> Hlen].
  rewrite take_ge by (rewrite Hlen; lia).
  apply list_elem_of_lookup. exists (rectIndex i j).
  destruct (initialMap_lookup i j Hij) as [_ Hr]. exact Hr.
Qed.

Lemma liveFill_layout (m : MapSystem) (i j : Z) :
  layout m = layout initialMap → inGrid (i, j) →
  liveFill m (i, j)
  = if ptrAlive m (Some (cellIndex i j))
    then Some (CallRenderFillRect aliveCellColor (Some (cellRect i j)))
    else None.
Proof.
  intros Hlay Hij. destruct (layout_cell m i j Hlay Hij) as (c & Hc & Hcol & Hrect).
  clear Hlay. unfold liveFill. change (cellOf (i, j)) with (cellIndex i j).
  rewrite ptrAlive_Some, Hc, Hcol, Hrect. reflexivity.
Qed.

Lemma renderCalls_drawMap (m : MapSystem) (rd : SDL_Renderer) :
  renderCalls (drawMap m rd)
  = renderCalls rd
    ++ [CallRenderFillRects deadCellColor
          (take (Z.to_nat (cellCount m)) (cellDrawList m))].
Proof. unfold drawMap. rewrite WITH_RENDER_COLOR_closed. reflexivity. Qed.

(** X20.  On a map with the constructed layout, [drawMap] followed by
    [drawActiveCells] shows the grid: [drawMap] makes one call, which fills
    a list of rectangles in the dead colour, the square of every cell among
    them; [drawActiveCells] then makes fill calls only, each the square of a
    live cell in the alive colour, and the square of cell [(i, j)] is among
    them exactly when the cell is alive. *)
Theorem frame_shows_grid (m : MapSystem) (rd : SDL_Renderer) (i j : Z) :
  layout m = layout initialMap →
  0 ≤ i < GRID_SIZE_X → 0 ≤ j < GRID_SIZE_Y →
  ∃ rects fills,
    renderCalls (drawMap m rd)
    = renderCalls rd ++ [CallRenderFillRects deadCellColor rects]
    ∧ cellRect i j ∈ rects
    ∧ renderCalls (drawActiveCells m (drawMap m rd))
      = renderCalls (drawMap m rd) ++ fills
    ∧ (CallRenderFillRect aliveCellColor (Some (cellRect i j)) ∈ fills
       ↔ ptrAlive m (Some (cellIndex i j)) = true)
    ∧ ∀ call, call ∈ fills →
        ∃ i' j', inGrid (i', j')
                 ∧ ptrAlive m (Some (cellIndex i' j')) = true
                 ∧ call = CallRenderFillRect aliveCellColor
                            (Some (cellRect i' j')).
Proof.
  intros Hlay Hi Hj.
  pose proof (cellRect_drawn m i j Hlay (conj Hi Hj)) as Hdead.
  pose proof (λ i j, liveFill_layout m i j Hlay) as Hfill. clear Hlay.
  exists (take (Z.to_nat (cellCount m)) (cellDrawList m)),
         (omap (liveFill m) scanOrder).
  split; [apply renderCalls_drawMap|]. split; [exact Hdead|]. clear Hdead.
  split; [exact (proj1 (foldl_drawCell m scanOrder (drawMap m rd)))|].
  split; [rewrite list_elem_of_omap; split|].
  - intros ([i' j'] & Hin & Hcall). apply elem_of_scanOrder in Hin.
    rewrite (Hfill i' j' Hin) in Hcall.
    destruct (ptrAlive m (Some (cellIndex i' j'))) eqn:Hal; [|discriminate Hcall].
    assert (cellRect i' j' = cellRect i j) as Hrect by congruence.
    apply cellRect_inj in Hrect as [-> ->]. exact Hal.
  - intros Hal. exists (i, j). split; [by apply elem_of_scanOrder|].
    rewrite (Hfill i j (conj Hi Hj)), Hal. reflexivity.
  - intros call Hcall. apply list_elem_of_omap in Hcall as ([i' j'] & Hin & Hcall).
    apply elem_of_scanOrder in Hin. rewrite (Hfill i' j' Hin) in Hcall.
    destruct (ptrAlive m (Some (cellIndex i' j'))) eqn:Hal; [|discriminate Hcall].
    exists i', j'. split; [exact Hin|]. split; [exact Hal|]. congruence.
Qed.

(** ** Pausing and the separation of clock and play state *)

(** X21.  Pause holds: paused and with no single-step request pending, no
    run of [SDL_AppIterate] calls advances the generation or changes the
    map, however much time passes and however many ticks are due. *)
Theorem paused_grid_is_frozen (frequency : Z) (counters : list Z) (w : World) :
  isPlaying (g_sim w) = false → shouldRunFrame (g_sim w) = false →
  let trace := runIterations frequency counters w in
  sum_list (advances trace) = 0%nat
  ∧ ∀ k r, trace !! k = Some r → g_map r.1 = g_map w.
Proof.
  intros Hp Hs. cbv zeta.
  destruct (paused_idle frequency counters w Hp Hs) as [Hadv Hall].
  cbv zeta in Hadv, Hall. split.
  - rewrite Hadv. apply sum_list_replicate_0.
  - intros k r Hk. by destruct (Hall k r Hk) as (_ & _ & ->).
Qed.

(** X22.  Events never touch the clock and iterations never touch the play
    state: [SDL_AppEvent] leaves the timestamp, the rate, the due signal
    and the accumulator as they were (so pausing, editing or resetting
    loses no accumulated time), and [SDL_AppIterate] leaves [isPlaying] as
    it was. *)
Theorem events_and_clock_are_separate (pir : SDL_FPoint → SDL_FRect → bool)
    (w : World) (e : SDL_Event) (counter frequency : Z) :
  let we := (SDL_AppEvent pir w e).1 in
  let wi := (SDL_AppIterate counter frequency w).1 in
  timestamp (g_sim we) = timestamp (g_sim w)
  ∧ fps (g_sim we) = fps (g_sim w)
  ∧ isAFixedUpdate (g_sim we) = isAFixedUpdate (g_sim w)
  ∧ accumulatedSeconds we = accumulatedSeconds w
  ∧ isPlaying (g_sim wi) = isPlaying (g_sim w).
Proof.
  cbv zeta. split; [|split; [|split; [|split]]].
  - destruct e as [|button x y|state x y|key|]; cbn [SDL_AppEvent]; try done.
    + by destruct (button =? SDL_BUTTON_LEFT).
    + by destruct (state =? SDL_BUTTON_LMASK).
    + destruct (key =? SDLK_P); [done|]. destruct (key =? SDLK_PERIOD); [done|].
      by destruct (key =? SDLK_R).
  - apply fps_SDL_AppEvent.
  - destruct e as [|button x y|state x y|key|]; cbn [SDL_AppEvent]; try done.
    + by destruct (button =? SDL_BUTTON_LEFT).
    + by destruct (state =? SDL_BUTTON_LMASK).
    + destruct (key =? SDLK_P); [done|]. destruct (key =? SDLK_PERIOD); [done|].
      by destruct (key =? SDLK_R).
  - apply accumulatedSeconds_SDL_AppEvent.
  - by destruct (SDL_AppIterate_spec counter frequency w) as (-> & _).
Qed.

Lemma reset_all_dead (m : MapSystem) :
  length (cellMap m) = Z.to_nat (GRID_SIZE_X * GRID_SIZE_Y) →
  ∀ q, ptrAlive (handleSimulationReset m) q = false.
Proof.
  intros Hlen [p|]; [|done]. rewrite ptrAlive_Some.
  rewrite handleSimulationReset_foldl, cellMap_foldl_writeAlive.
  destruct (decide (p ∈ cellOf <$> scanOrder)) as [Hin|Hout].
  - by destruct (cellMap m !! p).
  - destruct (cellMap m !! p) eqn:Hp; [|done]. exfalso. apply Hout.
    apply scanOrder_covers. rewrite <- Hlen. by apply lookup_lt_Some in Hp.
Qed.

(** * Further concrete runs *)

Lemma AppInit_cells_witness :
  ∃ c, cellMap (g_map (SDL_AppInit 0)) !! cellIndex 3 5 = Some c
       ∧ isAlive c = false ∧ cell_x c = 3 ∧ cell_y c = 5.
Proof.
  destruct (AppInit_cells 0 3 5) as [(c & Hc & Ha & Hx & Hy & _) _];
    [unfold GRID_SIZE_X; lia|unfold GRID_SIZE_Y; lia|].
  exists c. repeat split; assumption.
Defined.

Lemma inCellRect_10_10 : inCellRect 10 10 0 0.
Proof. unfold inCellRect. repeat split; vm_compute; discriminate. Qed.

Lemma getCellUnderPoint_layout_witness :
  layout (g_map startWorld) = layout initialMap
  ∧ getCellUnderPoint pointInRectInclusive (g_map startWorld) 10 10
    = Some (cellIndex 0 0).
Proof.
  split; [reflexivity|].
  apply (proj1 (getCellUnderPoint_layout (g_map startWorld) 10 10 eq_refl)).
  - unfold GRID_SIZE_X. lia.
  - unfold GRID_SIZE_Y. lia.
  - exact inCellRect_10_10.
Defined.

Lemma anchor_written_by_left_down_only_witness :
  dragStartCell
    (g_map (SDL_AppEvent pointInRectInclusive clickedWorld
              (SDL_EVENT_KEY_DOWN SDLK_R)).1)
  = dragStartCell (g_map clickedWorld).
Proof.
  apply (proj1 (anchor_written_by_left_down_only pointInRectInclusive
                  clickedWorld (SDL_EVENT_KEY_DOWN SDLK_R) 0 1000
                  (λ x y, ltac:(discriminate)))).
Defined.

Lemma getNumLiveNeighbors_torus_witness :
  topology blinkerMap = topology initialMap
  ∧ getNumLiveNeighbors blinkerMap (cellIndex 2 1)
    = Z.of_nat (length (filter (λ q, ptrAlive blinkerMap q = true)
                               (toroidalMoore 2 1))).
Proof.
  assert (topology blinkerMap = topology initialMap) as Ht
    by apply topology_foldl_writeAlive.
  split; [exact Ht|].
  apply (getNumLiveNeighbors_torus blinkerMap 2 1 Ht).
  - unfold GRID_SIZE_X. lia.
  - unfold GRID_SIZE_Y. lia.
Defined.

Lemma dead_grid_is_fixed_witness :
  simulateConwayIteration (handleSimulationReset blinkerMap)
  = handleSimulationReset blinkerMap.
Proof.
  apply dead_grid_is_fixed. apply reset_all_dead.
  unfold blinkerMap.
  destruct (foldl_writeAlive_frame true
              [cellIndex 1 2; cellIndex 2 2; cellIndex 3 2] initialMap)
    as (_ & _ & _ & Hn & _).
  apply (f_equal length) in Hn. rewrite !length_fmap in Hn. rewrite Hn.
  apply length_cellMap_initialMap.
Defined.

Lemma set_edit_overwrites_witness :
  setCellUnderPoint pointInRectInclusive
    (setCellUnderPoint pointInRectInclusive (g_map startWorld) 10 10 CELL_TOGGLE)
    10 10 CELL_SET_DEAD
  = setCellUnderPoint pointInRectInclusive (g_map startWorld) 10 10 CELL_SET_DEAD.
Proof.
  apply (set_edit_overwrites pointInRectInclusive (g_map startWorld) 10 10
           CELL_TOGGLE CELL_SET_DEAD).
  discriminate.
Defined.

Lemma click_in_square_witness :
  ptrAlive (g_map clickedWorld) (Some (cellIndex 0 0))
  = negb (ptrAlive (g_map startWorld) (Some (cellIndex 0 0)))
  ∧ dragStartCell (g_map clickedWorld) = Some (cellIndex 0 0).
Proof.
  destruct (click_in_square startWorld 10 10 0 0) as (Ha & _ & Hd & _);
    [reflexivity|unfold GRID_SIZE_X; lia|unfold GRID_SIZE_Y; lia
    |exact inCellRect_10_10|].
  split; [exact Ha|exact Hd].
Defined.

Lemma ticks_conserve_time_witness :
  timestamp (g_sim (default startWorld
                      (last (tickTrace 1000 [100; 200; 250] startWorld))))
  = 250.
Proof.
  apply (proj1 (ticks_conserve_time 1000 [100; 200; 250] startWorld
                  ltac:(vm_compute; discriminate)
                  ltac:(vm_compute; repeat split; discriminate)
                  ltac:(repeat constructor))).
Defined.


Lemma accumulator_never_negative_witness :
  (0 <= accumulatedSeconds
          (runApp pointInRectInclusive 1000
             [OnIterate 100; OnEvent (SDL_EVENT_KEY_DOWN SDLK_P); OnIterate 300]
             startWorld))%Q.
Proof.
  apply accumulator_never_negative.
  - lia.
  - vm_compute. discriminate.
Defined.

Lemma playing_bumps_timestamp_witness :
  isPlaying (g_sim playingWorld) = true
  ∧ elapsedSeconds 100 1000 (SDL_AppIterate 100 1000 playingWorld).1
    = (inject_Z (2 ^ 64 - 1) / inject_Z 1000)%Q.
Proof.
  split; [reflexivity|].
  apply (proj1 (proj2 (playing_bumps_timestamp 100 1000 playingWorld eq_refl
                         ltac:(lia) ltac:(lia)))).
Defined.

Lemma frame_shows_grid_witness :
  ∃ fills,
    renderCalls (drawActiveCells (g_map clickedWorld)
                   (drawMap (g_map clickedWorld) (mkRenderer deadCellColor [])))
    = renderCalls (drawMap (g_map clickedWorld) (mkRenderer deadCellColor []))
      ++ fills
    ∧ (CallRenderFillRect aliveCellColor (Some (cellRect 0 0)) ∈ fills
       ↔ ptrAlive (g_map clickedWorld) (Some (cellIndex 0 0)) = true).
Proof.
  destruct (frame_shows_grid (g_map clickedWorld) (mkRenderer deadCellColor [])
              0 0
              (layout_SDL_AppEvent pointInRectInclusive startWorld
                 (SDL_EVENT_MOUSE_BUTTON_DOWN SDL_BUTTON_LEFT 10 10))
              ltac:(unfold GRID_SIZE_X; lia) ltac:(unfold GRID_SIZE_Y; lia))
    as (rects & fills & _ & _ & Hcalls & Hlive & _).
  exists fills. split; [exact Hcalls|exact Hlive].
Defined.

Lemma paused_grid_is_frozen_witness :
  sum_list (advances (runIterations 1000 [100; 200; 300] startWorld)) = 0%nat.
Proof.
  apply (proj1 (paused_grid_is_frozen 1000 [100; 200; 300] startWorld
                  eq_refl eq_refl)).
Defined.
